(** * Gallery index: line parsing, aggregation and query evaluation

    A shallow embedding of the algorithmic core of [src/main.ts]:
    [parseGalleryLine], [ExtractGalleryData.extract],
    [ExtractGalleryData.getGalleryContent], [evaluateField] and the
    filtering loop of [GallerySearchView.onOpen].

    A JavaScript string is the sequence of its UTF-16 code units; a code
    unit is a number ([N]).  Regular expressions without the [u] flag,
    [includes], [split] and [trim] all work on code units, so they are
    written out here on [list N].  [toLowerCase] is the host's Unicode
    mapping: the evaluator is developed in a section over it, and an ASCII
    instance is given for running the examples. *)

From Stdlib Require Import List NArith Bool Arith Lia String Ascii.
From Stdlib Require Import ZArith Permutation.
Import ListNotations.

Set Implicit Arguments.

(** ** Strings as code-unit sequences *)

Definition jsstring := list N.

(** A literal, written as a Rocq string of ASCII characters. *)
Definition str (s : string) : jsstring :=
  map N_of_ascii (list_ascii_of_string s).

Fixpoint str_eqb (a b : jsstring) : bool :=
  match a, b with
  | [], [] => true
  | x :: a', y :: b' => N.eqb x y && str_eqb a' b'
  | _, _ => false
  end.

(** [s.startsWith(t)] *)
Fixpoint startsWith (s t : jsstring) {struct t} : bool :=
  match t with
  | [] => true
  | c :: t' =>
      match s with
      | [] => false
      | d :: s' => N.eqb d c && startsWith s' t'
      end
  end.

(** [s.includes(t)]: [t] occurs in [s] at some index. *)
Fixpoint includes (s t : jsstring) : bool :=
  startsWith s t ||
  match s with
  | [] => false
  | _ :: s' => includes s' t
  end.

(** [arr.includes(x)] on an array of strings (comparison is string equality). *)
Definition array_includes (arr : list jsstring) (x : jsstring) : bool :=
  existsb (str_eqb x) arr.

(** [s.split(sep)] for a one-code-unit separator: never returns the empty
    array, the empty string gives one empty piece. *)
Fixpoint split (sep : N) (s : jsstring) : list jsstring :=
  match s with
  | [] => [[]]
  | c :: s' =>
      if N.eqb c sep then [] :: split sep s'
      else match split sep s' with
           | piece :: pieces => (c :: piece) :: pieces
           | [] => [[c]]
           end
  end.

(** Code units that [String.prototype.trim] strips: WhiteSpace and
    LineTerminator of the language specification. *)
Definition is_line_terminator (c : N) : bool :=
  (N.eqb c 10 || N.eqb c 13 || N.eqb c 8232 || N.eqb c 8233)%N.

Definition is_white_space (c : N) : bool :=
  (N.eqb c 9 || N.eqb c 11 || N.eqb c 12 || N.eqb c 32 || N.eqb c 160 ||
   N.eqb c 5760 || (N.leb 8192 c && N.leb c 8202) || N.eqb c 8239 ||
   N.eqb c 8287 || N.eqb c 12288 || N.eqb c 65279)%N.

Definition is_trimmed_unit (c : N) : bool :=
  is_white_space c || is_line_terminator c.

Fixpoint trimStart (s : jsstring) : jsstring :=
  match s with
  | [] => []
  | c :: s' => if is_trimmed_unit c then trimStart s' else s
  end.

Definition trimEnd (s : jsstring) : jsstring := rev (trimStart (rev s)).

Definition trim (s : jsstring) : jsstring := trimEnd (trimStart s).

(** ASCII lower-casing, the restriction of [toLowerCase] to ASCII text. *)
Definition ascii_lower_unit (c : N) : N :=
  if (N.leb 65 c && N.leb c 90)%N then (c + 32)%N else c.

Definition ascii_toLowerCase (s : jsstring) : jsstring := map ascii_lower_unit s.

(** ** The field evaluator *)

Inductive LogicMode := Disable | Or | And | Not.

(** [value: string | string[]] *)
Inductive FieldValue :=
| Scalar (s : jsstring)
| Many (l : list jsstring).

(** The value sequence a field value stands for. *)
Definition value_list (value : FieldValue) : list jsstring :=
  match value with
  | Scalar s => [s]
  | Many l => l
  end.

Section Evaluator.

Variable toLowerCase : jsstring -> jsstring.

Definition evaluateField (value : FieldValue) (terms : list jsstring)
           (mode : LogicMode) : bool :=
  match mode with
  | Disable => true
  | _ =>
      let values :=
        match value with
        | Many l => map toLowerCase l
        | Scalar s => [toLowerCase s]
        end in
      let termsLower := map toLowerCase terms in
      if Nat.eqb (List.length terms) 0 then
        match mode with Not => true | _ => false end
      else
        match mode with
        | Or =>
            existsb (fun term => existsb (fun v => includes v term) values)
                    termsLower
        | And =>
            forallb (fun term => existsb (fun v => includes v term) values)
                    termsLower
        | Not =>
            forallb (fun term => forallb (fun v => negb (includes v term)) values)
                    termsLower
        | Disable => true (* not reached: [disable] returned above *)
        end
  end.

(** [term] occurs in [value] when both are lower-cased. *)
Definition contains_ci (value term : jsstring) : Prop :=
  exists pre post, toLowerCase value = pre ++ toLowerCase term ++ post.

End Evaluator.

(** ** The line parser

    The two patterns of [parseGalleryLine],
    [/<!\[\[(.*?)\]\]<(.*?)>>/] and [/!\[\[(.*?)\]\]/], as backtracking
    matchers in continuation-passing style: a literal consumes its code
    units, a lazy group [(.*?)] first tries the rest of the pattern with
    what it has captured so far and only then takes one more code unit
    ([.] takes anything but a line terminator), and an unanchored pattern
    is tried at index 0, 1, ... of the line until it matches. *)

(** The rest of [s] after the literal [p], if [s] starts with it. *)
Fixpoint lit (p s : jsstring) {struct p} : option jsstring :=
  match p with
  | [] => Some s
  | c :: p' =>
      match s with
      | [] => None
      | d :: s' => if N.eqb d c then lit p' s' else None
      end
  end.

(** [(.*?)] followed by the continuation [k], which receives the capture
    and the remaining input. *)
Fixpoint lazy_dot (A : Type) (k : jsstring -> jsstring -> option A)
         (cap s : jsstring) : option A :=
  match k cap s with
  | Some r => Some r
  | None =>
      match s with
      | [] => None
      | c :: s' =>
          if is_line_terminator c then None else lazy_dot k (cap ++ [c]) s'
      end
  end.

(** Leftmost match of a pattern that is tried at every index. *)
Fixpoint search (A : Type) (m : jsstring -> option A) (s : jsstring) : option A :=
  match m s with
  | Some r => Some r
  | None =>
      match s with
      | [] => None
      | _ :: s' => search m s'
      end
  end.

(** The match array: group 1 always takes part, group 2 is [undefined]
    for the pattern that has no second group. *)
Record RegExpMatch := mkMatch {
  group1 : jsstring;
  group2 : option jsstring
}.

Definition annotated_tail (g1 s : jsstring) : option RegExpMatch :=
  match lit (str "]]<") s with
  | None => None
  | Some s' =>
      lazy_dot
        (fun g2 s'' =>
           match lit (str ">>") s'' with
           | None => None
           | Some _ => Some (mkMatch g1 (Some g2))
           end)
        [] s'
  end.

(** [/<!\[\[(.*?)\]\]<(.*?)>>/] at the start of [s]. *)
Definition annotated_at (s : jsstring) : option RegExpMatch :=
  match lit (str "<![[") s with
  | None => None
  | Some s' => lazy_dot annotated_tail [] s'
  end.

Definition bare_tail (g1 s : jsstring) : option RegExpMatch :=
  match lit (str "]]") s with
  | None => None
  | Some _ => Some (mkMatch g1 None)
  end.

(** [/!\[\[(.*?)\]\]/] at the start of [s]. *)
Definition bare_at (s : jsstring) : option RegExpMatch :=
  match lit (str "![[") s with
  | None => None
  | Some s' => lazy_dot bare_tail [] s'
  end.

Definition match_annotated (line : jsstring) : option RegExpMatch :=
  search annotated_at line.

Definition match_bare (line : jsstring) : option RegExpMatch :=
  search bare_at line.

Record oneGalleryEntry := mkOne {
  one_filename : jsstring;
  one_gallery : jsstring;
  one_properties : list jsstring
}.

Definition comma : N := 44%N.
Definition newline : N := 10%N.

Definition parseGalleryLine (line gallery : jsstring) : option oneGalleryEntry :=
  let matched :=
    match match_annotated line with
    | Some m => Some m
    | None => match_bare line
    end in
  match matched with
  | None => None
  | Some m =>
      let filename := group1 m in
      let props :=
        match group2 m with
        | Some g => map trim (split comma g)
        | None => []
        end in
      Some (mkOne filename gallery props)
  end.

(** ** [Map<string, V>]: keys in insertion order, one binding per key *)

Definition JsMap (V : Type) := list (jsstring * V).

Fixpoint map_get (V : Type) (m : JsMap V) (k : jsstring) : option V :=
  match m with
  | [] => None
  | (k', v) :: m' => if str_eqb k' k then Some v else map_get m' k
  end.

(** [m.set(k, v)]: an existing key keeps its place, a new key goes last. *)
Fixpoint map_set (V : Type) (m : JsMap V) (k : jsstring) (v : V) : JsMap V :=
  match m with
  | [] => [(k, v)]
  | (k', v') :: m' =>
      if str_eqb k' k then (k', v) :: m' else (k', v') :: map_set m' k v
  end.

(** ** The aggregator *)

Record RawGalleryData := mkRaw {
  content : list jsstring;
  galleryName : jsstring
}.

Record GalleryEntry := mkEntry {
  filename : jsstring;
  galleries : list jsstring;
  properties : list jsstring
}.

(** [arr.push(x)] *)
Definition push (A : Type) (arr : list A) (x : A) : list A := arr ++ [x].

(** The two nested loops of [extract] that collect the parsed lines. *)
Definition parse_lines (rawData : list RawGalleryData) : list oneGalleryEntry :=
  fold_left
    (fun parsedEntries block =>
       fold_left
         (fun parsedEntries line =>
            match parseGalleryLine line (galleryName block) with
            | Some parsed => push parsedEntries parsed
            | None => parsedEntries
            end)
         (content block) parsedEntries)
    rawData [].

Definition add_gallery (existing : GalleryEntry) (gallery : jsstring) : GalleryEntry :=
  if array_includes (galleries existing) gallery then existing
  else mkEntry (filename existing) (push (galleries existing) gallery)
               (properties existing).

Definition add_property (existing : GalleryEntry) (prop : jsstring) : GalleryEntry :=
  if array_includes (properties existing) prop then existing
  else mkEntry (filename existing) (galleries existing)
               (push (properties existing) prop).

(** One iteration of the loop over [parsedEntries]. *)
Definition merge_entry (imageMap : JsMap GalleryEntry) (entry : oneGalleryEntry)
  : JsMap GalleryEntry :=
  let existing :=
    match map_get imageMap (one_filename entry) with
    | Some e => e
    | None => mkEntry (one_filename entry) [] []
    end in
  let existing := add_gallery existing (one_gallery entry) in
  let existing := fold_left add_property (one_properties entry) existing in
  map_set imageMap (one_filename entry) existing.

(** The index after the entries [parsedEntries] were folded into [imageMap]. *)
Definition merge_all (parsedEntries : list oneGalleryEntry)
           (imageMap : JsMap GalleryEntry) : JsMap GalleryEntry :=
  fold_left merge_entry parsedEntries imageMap.

(** [extract] on the blocks that [getGalleryContent] produced. *)
Definition extract_from (rawData : list RawGalleryData) : JsMap GalleryEntry :=
  merge_all (parse_lines rawData) [].

(** ** The source selector *)

(** An awaited call either produces its value or rejects; a rejection
    leaves the enclosing [async] function at once. *)
Inductive Promise (A : Type) :=
| Resolved (a : A)
| Rejected (reason : jsstring).

Arguments Resolved {A} a.
Arguments Rejected {A} reason.

Definition await (A B : Type) (p : Promise A) (k : A -> Promise B) : Promise B :=
  match p with
  | Resolved a => k a
  | Rejected reason => Rejected reason
  end.

Notation "x <- p ;; k" := (await p (fun x => k))
  (at level 61, p at next level, right associativity).

Record TFile := mkFile {
  basename : jsstring;
  path : jsstring
}.

Record Vault := mkVault {
  getMarkdownFiles : list TFile;
  cachedRead : TFile -> Promise jsstring
}.

Inductive GalleryMode := Explicit | Virtual.

Fixpoint explicit_loop (vault : Vault) (mdFiles : list TFile)
         (names : list jsstring) (results : list RawGalleryData)
  : Promise (list RawGalleryData) :=
  match names with
  | [] => Resolved results
  | name :: names' =>
      match find (fun f => str_eqb (basename f) name) mdFiles with
      | None => explicit_loop vault mdFiles names' results
      | Some file =>
          text <- cachedRead vault file ;;
          explicit_loop vault mdFiles names'
            (push results (mkRaw (split newline text) (basename file)))
      end
  end.

Fixpoint virtual_loop (vault : Vault) (sourceData : list jsstring)
         (files : list TFile) (results : list RawGalleryData)
  : Promise (list RawGalleryData) :=
  match files with
  | [] => Resolved results
  | file :: files' =>
      text <- cachedRead vault file ;;
      if existsb (fun tag => includes text tag) sourceData
      then virtual_loop vault sourceData files'
             (push results (mkRaw (split newline text) (basename file)))
      else virtual_loop vault sourceData files' results
  end.

Definition getGalleryContent (vault : Vault) (mode : GalleryMode)
           (sourceData : list jsstring) : Promise (list RawGalleryData) :=
  let mdFiles := getMarkdownFiles vault in
  match mode with
  | Explicit => explicit_loop vault mdFiles sourceData []
  | Virtual => virtual_loop vault sourceData mdFiles []
  end.

Definition extract (vault : Vault) (mode : GalleryMode)
           (sourceData : list jsstring) : Promise (JsMap GalleryEntry) :=
  rawData <- getGalleryContent vault mode sourceData ;;
  Resolved (extract_from rawData).

(** ** The query filter of the search view *)

Record MultiSearchFilter := mkFilter {
  filenameMode : LogicMode;
  galleryMode : LogicMode;
  propertyMode : LogicMode;
  filenameTerms : list jsstring;
  galleryTerms : list jsstring;
  propertyTerms : list jsstring
}.

Record VirtualGalleryEntry := mkVirtual {
  v_properties : list jsstring;
  v_galleries : list jsstring
}.

Definition is_disable (mode : LogicMode) : bool :=
  match mode with Disable => true | _ => false end.

Section Filter.

Variable toLowerCase : jsstring -> jsstring.

Definition shouldInclude (filters : MultiSearchFilter)
           (key : jsstring) (entry : GalleryEntry) : bool :=
  let fileMatch :=
    evaluateField toLowerCase (Scalar key)
                  (filenameTerms filters) (filenameMode filters) in
  let galleryMatch :=
    evaluateField toLowerCase (Many (galleries entry))
                  (galleryTerms filters) (galleryMode filters) in
  let propMatch :=
    evaluateField toLowerCase (Many (properties entry))
                  (propertyTerms filters) (propertyMode filters) in
  forallb (fun b => b)
    [ is_disable (filenameMode filters) || fileMatch;
      is_disable (galleryMode filters) || galleryMatch;
      is_disable (propertyMode filters) || propMatch ].

(** The loop over [fullImageMap.entries()] that fills [virtualMap]. *)
Definition filter_entries (filters : MultiSearchFilter)
           (fullImageMap : JsMap GalleryEntry) : JsMap VirtualGalleryEntry :=
  fold_left
    (fun virtualMap kv =>
       let '(key, entry) := kv in
       if shouldInclude filters key entry
       then map_set virtualMap key
              (mkVirtual (properties entry) (galleries entry))
       else virtualMap)
    fullImageMap [].

End Filter.

(** ** The two content sources handed to the views *)

Fixpoint explicit_source_loop (vault : Vault) (mdFiles : list TFile)
         (names : list jsstring) (contents : list jsstring)
  : Promise (list jsstring) :=
  match names with
  | [] => Resolved contents
  | name :: names' =>
      match find (fun f => str_eqb (basename f) name) mdFiles with
      | None => explicit_source_loop vault mdFiles names' contents
      | Some file =>
          text <- cachedRead vault file ;;
          explicit_source_loop vault mdFiles names' (push contents text)
      end
  end.

(** [ExplicitNameGallerySource.getGalleryContent] *)
Definition ExplicitNameGallerySource_getGalleryContent
           (galleryNames : list jsstring) (vault : Vault) : Promise (list jsstring) :=
  explicit_source_loop vault (getMarkdownFiles vault) galleryNames [].

Fixpoint tag_source_loop (vault : Vault) (tag : jsstring)
         (files : list TFile) (result : list jsstring) : Promise (list jsstring) :=
  match files with
  | [] => Resolved result
  | file :: files' =>
      text <- cachedRead vault file ;;
      if includes text tag
      then tag_source_loop vault tag files' (push result text)
      else tag_source_loop vault tag files' result
  end.

(** [TagBasedGallerySource.getGalleryContent] *)
Definition TagBasedGallerySource_getGalleryContent
           (tag : jsstring) (vault : Vault) : Promise (list jsstring) :=
  tag_source_loop vault tag (getMarkdownFiles vault) [].

(** The tag that marks a gallery document. *)
Definition mdGallery : jsstring := str "#mdGallery".

(** ** The names in a [thumbGallery] code block

    [[...source.matchAll(/\[\[(.*?)\]\]/g)].map(m => m[1])]: the pattern is
    tried from the current index on; after a match the search goes on
    behind the match, after a failure it ends.  The fuel bounds the number
    of steps; the length of the text, plus one, is always enough. *)

Definition link_tail (g s : jsstring) : option (jsstring * jsstring) :=
  match lit (str "]]") s with
  | None => None
  | Some rest => Some (g, rest)
  end.

(** [/\[\[(.*?)\]\]/] at the start of [s]: the capture and what follows
    the match. *)
Definition link_at (s : jsstring) : option (jsstring * jsstring) :=
  match lit (str "[[") s with
  | None => None
  | Some s' => lazy_dot link_tail [] s'
  end.

Fixpoint matchAll_links (fuel : nat) (s : jsstring) : list jsstring :=
  match fuel with
  | O => []
  | S fuel' =>
      match link_at s with
      | Some (g, rest) => g :: matchAll_links fuel' rest
      | None =>
          match s with
          | [] => []
          | _ :: s' => matchAll_links fuel' s'
          end
      end
  end.

Definition codeblock_names (source : jsstring) : list jsstring :=
  matchAll_links (S (List.length source)) source.

(** The index a [thumbGallery] code block shows: the explicit policy on
    the names written in the block. *)
Definition codeblock_index (vault : Vault) (source : jsstring)
  : Promise (JsMap GalleryEntry) :=
  extract vault Explicit (codeblock_names source).

(** ** The selection state of a search block

    [createSearchBlock] keeps the selected terms in [selectedList]; the
    [<ul>] of suggestions holds one item per offered term, the chips are
    redrawn from [selectedList] after each change.  The state below is
    [selectedList] and the terms of the items now in the [<ul>]; an event
    is what a handler of the block reacts to. *)

(** [arr.indexOf(x)]: the first index of [x], or -1. *)
Fixpoint indexOf_from (arr : list jsstring) (x : jsstring) (i : Z) : Z :=
  match arr with
  | [] => (-1)%Z
  | y :: arr' => if str_eqb y x then i else indexOf_from arr' x (i + 1)%Z
  end.

Definition indexOf (arr : list jsstring) (x : jsstring) : Z := indexOf_from arr x 0%Z.

(** [arr.splice(start, 1)]: a negative [start] counts from the end, and
    nothing is removed when the start is the length. *)
Definition splice_one (A : Type) (arr : list A) (start : Z) : list A :=
  let len := Z.of_nat (List.length arr) in
  let actualStart :=
    if (start <? 0)%Z then Z.max (len + start) 0 else Z.min start len in
  firstn (Z.to_nat actualStart) arr ++ skipn (S (Z.to_nat actualStart)) arr.

(** The click handler of the chip of [tag]. *)
Definition remove_chip (selectedList : list jsstring) (tag : jsstring)
  : list jsstring :=
  splice_one selectedList (indexOf selectedList tag).

Record SearchBlock := mkBlock {
  selectedList : list jsstring;
  suggestionItems : list jsstring
}.

Inductive BlockEvent :=
| InputEvent (value : jsstring)
| ItemClick (i : nat)
| ChipClick (i : nat).

Section SearchBlockModel.

Variable toLowerCase : jsstring -> jsstring.
Variable suggestions : list jsstring.

Definition block_step (st : SearchBlock) (ev : BlockEvent) : SearchBlock :=
  match ev with
  | InputEvent value =>
      let val := toLowerCase value in
      mkBlock (selectedList st)
              (filter (fun tag =>
                         includes (toLowerCase tag) val &&
                         negb (array_includes (selectedList st) tag))
                      suggestions)
  | ItemClick i =>
      match nth_error (suggestionItems st) i with
      | Some item => mkBlock (push (selectedList st) item) []
      | None => st
      end
  | ChipClick i =>
      match nth_error (selectedList st) i with
      | Some tag => mkBlock (remove_chip (selectedList st) tag) (suggestionItems st)
      | None => st
      end
  end.

(** The block after the events, from the empty selection. *)
Definition block_run (events : list BlockEvent) : SearchBlock :=
  fold_left block_step events (mkBlock [] []).

(** [getSelected()] *)
Definition getSelected (st : SearchBlock) : list jsstring := selectedList st.

End SearchBlockModel.

(** ** Vocabulary of the statements *)

Definition no_line_terminator (g : jsstring) : Prop :=
  forallb (fun c => negb (is_line_terminator c)) g = true.

(** The shapes, read off the two patterns. *)
Definition annotated_shape (line g1 g2 : jsstring) : Prop :=
  exists pre post,
    line = pre ++ str "<![[" ++ g1 ++ str "]]<" ++ g2 ++ str ">>" ++ post /\
    no_line_terminator g1 /\ no_line_terminator g2.

Definition bare_shape (line g1 : jsstring) : Prop :=
  exists pre post,
    line = pre ++ str "![[" ++ g1 ++ str "]]" ++ post /\ no_line_terminator g1.

(** [toks.join(sep)] *)
Fixpoint join (sep : N) (toks : list jsstring) : jsstring :=
  match toks with
  | [] => []
  | t :: toks' =>
      match toks' with
      | [] => t
      | _ :: _ => t ++ sep :: join sep toks'
      end
  end.

(** [p] is [tok] without the white space around it. *)
Definition trimmed_of (tok p : jsstring) : Prop :=
  exists l r,
    tok = l ++ p ++ r /\
    forallb is_trimmed_unit l = true /\
    forallb is_trimmed_unit r = true /\
    (forall c p', p = c :: p' -> is_trimmed_unit c = false) /\
    (forall p' c, p = p' ++ [c] -> is_trimmed_unit c = false).

(** An index entry stores no source and no property twice. *)
Definition entry_nodup (e : GalleryEntry) : Prop :=
  NoDup (galleries e) /\ NoDup (properties e).

Definition index_nodup (imageMap : JsMap GalleryEntry) : Prop :=
  Forall (fun kv => entry_nodup (snd kv)) imageMap.

(** The index already records everything the parsed line [entry] says. *)
Definition absorbed (imageMap : JsMap GalleryEntry) (entry : oneGalleryEntry) : Prop :=
  exists e,
    map_get imageMap (one_filename entry) = Some e /\
    In (one_gallery entry) (galleries e) /\
    incl (one_properties entry) (properties e).

(** The records of one block, line by line. *)
Definition parse_block (block : RawGalleryData) : list oneGalleryEntry :=
  flat_map
    (fun line =>
       match parseGalleryLine line (galleryName block) with
       | Some parsed => [parsed]
       | None => []
       end)
    (content block).

(** The three per-field evaluations of one index entry, all true. *)
Definition fields_match (toLowerCase : jsstring -> jsstring)
           (filters : MultiSearchFilter) (key : jsstring) (entry : GalleryEntry) : bool :=
  evaluateField toLowerCase (Scalar key)
                (filenameTerms filters) (filenameMode filters) &&
  evaluateField toLowerCase (Many (galleries entry))
                (galleryTerms filters) (galleryMode filters) &&
  evaluateField toLowerCase (Many (properties entry))
                (propertyTerms filters) (propertyMode filters).

(** What the filtered index keeps of an entry. *)
Definition view (kv : jsstring * GalleryEntry) : jsstring * VirtualGalleryEntry :=
  (fst kv, mkVirtual (properties (snd kv)) (galleries (snd kv))).

(** Some document of the vault has exactly this base name. *)
Definition has_document (vault : Vault) (name : jsstring) : bool :=
  existsb (fun f => str_eqb (basename f) name) (getMarkdownFiles vault).

(** A vault of two documents, [A] and [B], for running the selector. *)
Definition two_notes : Vault :=
  mkVault
    [ mkFile (str "A") (str "A.md"); mkFile (str "B") (str "dir/B.md") ]
    (fun file =>
       if str_eqb (basename file) (str "A") then Resolved (str "![[img1.png]]")
       else if str_eqb (basename file) (str "B")
            then Resolved (str "<![[img1.png]]<red,large>>")
            else Rejected (str "ENOENT")).

(** ** Vocabulary for first-seen order *)

(** [s.add(x)] on a [Set], and the "push unless included" idiom on arrays:
    the elements stay in insertion order. *)
Definition set_add (s : list jsstring) (x : jsstring) : list jsstring :=
  if array_includes s x then s else push s x.

(** The distinct elements of [l], each at the place of its first occurrence. *)
Fixpoint first_seen (l : list jsstring) : list jsstring :=
  match l with
  | [] => []
  | x :: l' => x :: filter (fun y => negb (str_eqb y x)) (first_seen l')
  end.

(** The parsed lines that refer to the item [k]. *)
Definition records_of (k : jsstring) (records : list oneGalleryEntry)
  : list oneGalleryEntry :=
  filter (fun r => str_eqb (one_filename r) k) records.

(** The entry that the parsed lines [records] give the item [k]. *)
Definition entry_for (k : jsstring) (records : list oneGalleryEntry)
  : option GalleryEntry :=
  match records_of k records with
  | [] => None
  | _ :: _ =>
      Some (mkEntry k
                    (first_seen (map one_gallery (records_of k records)))
                    (first_seen (flat_map one_properties (records_of k records))))
  end.

(** [r] is what some line of some block parses to. *)
Definition parsed_from (rawData : list RawGalleryData) (r : oneGalleryEntry) : Prop :=
  exists block line,
    In block rawData /\ In line (content block) /\
    parseGalleryLine line (galleryName block) = Some r.

(** The two arrays hold the same strings. *)
Definition same_members (a b : list jsstring) : Prop :=
  forall x, In x a <-> In x b.

(** A property as the parser can produce it: no comma, no line terminator,
    no white space at either end. *)
Definition clean_property (p : jsstring) : Prop :=
  ~ In comma p /\ no_line_terminator p /\
  (forall c p', p = c :: p' -> is_trimmed_unit c = false) /\
  (forall p' c, p = p' ++ [c] -> is_trimmed_unit c = false).

(** [f'] asks no more than [f]: each field of [f'] is either switched off
    or set as in [f]. *)
Definition relaxes (f f' : MultiSearchFilter) : Prop :=
  (filenameMode f' = Disable \/
   (filenameMode f' = filenameMode f /\ filenameTerms f' = filenameTerms f)) /\
  (galleryMode f' = Disable \/
   (galleryMode f' = galleryMode f /\ galleryTerms f' = galleryTerms f)) /\
  (propertyMode f' = Disable \/
   (propertyMode f' = propertyMode f /\ propertyTerms f' = propertyTerms f)).

(** The block a document contributes under the virtual policy: its lines,
    if it can be read and holds one of the markers. *)
Definition marked_block (vault : Vault) (sourceData : list jsstring) (file : TFile)
  : list RawGalleryData :=
  match cachedRead vault file with
  | Resolved text =>
      if existsb (fun tag => includes text tag) sourceData
      then [mkRaw (split newline text) (basename file)]
      else []
  | Rejected _ => []
  end.

(** The read of [file] succeeds. *)
Definition readable (vault : Vault) (file : TFile) : Prop :=
  exists text, cachedRead vault file = Resolved text.

(** The document that the explicit policy reads for [name], if any, can be
    read. *)
Definition name_readable (vault : Vault) (name : jsstring) : Prop :=
  forall file,
    find (fun f => str_eqb (basename f) name) (getMarkdownFiles vault) = Some file ->
    readable vault file.

(** The text of a block, its lines put together again. *)
Definition block_text (block : RawGalleryData) : jsstring :=
  join newline (content block).

(** A vault whose second document cannot be read. *)
Definition broken_notes : Vault :=
  mkVault
    [ mkFile (str "A") (str "A.md"); mkFile (str "B") (str "B.md");
      mkFile (str "C") (str "C.md") ]
    (fun file =>
       if str_eqb (basename file) (str "B") then Rejected (str "ENOENT")
       else Resolved (str "#mdGallery")).

(** ** The autocomplete options of the search view

    The three [Set]s of [extractAutocompleteOptions], each as the list of
    its elements in insertion order. *)

Record AutocompleteOptions := mkOptions {
  opt_filenames : list jsstring;
  opt_galleries : list jsstring;
  opt_properties : list jsstring
}.

(** The body of the [forEach] over the lines of one document. *)
Definition add_parsed_line (gallery : jsstring) (opts : AutocompleteOptions)
           (line : jsstring) : AutocompleteOptions :=
  match parseGalleryLine line gallery with
  | None => opts
  | Some parsed =>
      mkOptions (set_add (opt_filenames opts) (one_filename parsed))
                (opt_galleries opts)
                (fold_left set_add (one_properties parsed) (opt_properties opts))
  end.

(** What one gallery document adds to the options. *)
Definition add_document (opts : AutocompleteOptions) (name : jsstring)
           (lines : list jsstring) : AutocompleteOptions :=
  fold_left (add_parsed_line name) lines
            (mkOptions (opt_filenames opts)
                       (set_add (opt_galleries opts) name)
                       (opt_properties opts)).

Fixpoint autocomplete_loop (vault : Vault) (files : list TFile)
         (opts : AutocompleteOptions) : Promise AutocompleteOptions :=
  match files with
  | [] => Resolved opts
  | file :: files' =>
      text <- cachedRead vault file ;;
      if negb (includes text (str "#mdGallery"))
      then autocomplete_loop vault files' opts
      else autocomplete_loop vault files'
             (add_document opts (basename file) (split newline text))
  end.

Definition extractAutocompleteOptions (vault : Vault) : Promise AutocompleteOptions :=
  autocomplete_loop vault (getMarkdownFiles vault) (mkOptions [] [] []).

(** The options that a sequence of blocks gives, added to [opts]. *)
Definition add_blocks (opts : AutocompleteOptions) (blocks : list RawGalleryData)
  : AutocompleteOptions :=
  fold_left (fun o b => add_document o (galleryName b) (content b)) blocks opts.

(** A code block text: links [[[name]]], each after some text [sep] free of
    ['['], and a last piece of text. *)
Definition codeblock_source (items : list (jsstring * jsstring)) (tail : jsstring)
  : jsstring :=
  flat_map (fun it => fst it ++ str "[[" ++ snd it ++ str "]]") items ++ tail.

(** A vault with two gallery documents and a plain one. *)
Definition gallery_notes : Vault :=
  mkVault
    [ mkFile (str "A") (str "A.md"); mkFile (str "B") (str "B.md");
      mkFile (str "C") (str "C.md") ]
    (fun file =>
       if str_eqb (basename file) (str "A")
       then Resolved (str "#mdGallery" ++ [newline] ++ str "![[img1.png]]")
       else if str_eqb (basename file) (str "B")
            then Resolved (str "<![[img1.png]]<red,large>>" ++ [newline] ++
                           str "![[cat.jpg]] #mdGallery")
            else Resolved (str "![[other.png]]")).

(** The selection is sound: no term twice, every term one of the
    suggestions, and no item on offer already selected. *)
Definition block_ok (suggestions : list jsstring) (st : SearchBlock) : Prop :=
  NoDup (selectedList st) /\
  incl (selectedList st) suggestions /\
  (forall x, In x (suggestionItems st) ->
             In x suggestions /\ ~ In x (selectedList st)).

(** * Properties *)

(** ** Strings *)

Lemma str_eqb_eq (a b : jsstring) : str_eqb a b = true <-> a = b.
Proof.
  revert b; induction a as [|x a IH]; intros [|y b]; simpl;
    try (split; [discriminate | congruence]); try tauto.
  rewrite andb_true_iff, N.eqb_eq, IH. split.
  - intros [-> ->]; reflexivity.
  - intros E; injection E; auto.
Qed.

Lemma str_eqb_refl (a : jsstring) : str_eqb a a = true.
Proof. apply str_eqb_eq; reflexivity. Qed.

Lemma str_eqb_neq (a b : jsstring) : str_eqb a b = false <-> a <> b.
Proof.
  rewrite <- str_eqb_eq. destruct (str_eqb a b); split; congruence.
Qed.

Lemma startsWith_spec (s t : jsstring) :
  startsWith s t = true <-> exists post, s = t ++ post.
Proof.
  revert s; induction t as [|c t IH]; intros s; simpl.
  - split; [exists s; reflexivity | reflexivity].
  - destruct s as [|d s].
    + split; [discriminate | intros [post E]; discriminate].
    + rewrite andb_true_iff, N.eqb_eq, IH. split.
      * intros [-> [post ->]]. exists post; reflexivity.
      * intros [post E]. injection E as -> ->. split; [reflexivity | eauto].
Qed.

Lemma includes_spec (s t : jsstring) :
  includes s t = true <-> exists pre post, s = pre ++ t ++ post.
Proof.
  induction s as [|d s IH]; simpl; rewrite orb_true_iff, startsWith_spec.
  - split.
    + intros [[post E] | F]; [exists [], post; exact E | discriminate].
    + intros [pre [post E]]. left.
      destruct pre; [exists post; exact E | discriminate].
  - rewrite IH. split.
    + intros [[post E] | [pre [post E]]].
      * exists [], post; exact E.
      * exists (d :: pre), post. simpl; rewrite E; reflexivity.
    + intros [[|x pre] [post E]].
      * left; exists post; exact E.
      * right. injection E as _ E. exists pre, post; exact E.
Qed.

Lemma array_includes_In (arr : list jsstring) (x : jsstring) :
  array_includes arr x = true <-> In x arr.
Proof.
  unfold array_includes. rewrite existsb_exists. split.
  - intros [y [Hy E]]. apply str_eqb_eq in E; subst; exact Hy.
  - intros H. exists x. split; [exact H | apply str_eqb_refl].
Qed.

Lemma array_includes_not_In (arr : list jsstring) (x : jsstring) :
  array_includes arr x = false <-> ~ In x arr.
Proof.
  rewrite <- array_includes_In. destruct (array_includes arr x); split; congruence.
Qed.

(** ** The field evaluator *)

Section EvaluatorFacts.

Variable toLowerCase : jsstring -> jsstring.

Lemma includes_lower (v t : jsstring) :
  includes (toLowerCase v) (toLowerCase t) = true <-> contains_ci toLowerCase v t.
Proof. apply includes_spec. Qed.

Lemma evaluateField_nonempty (value : FieldValue) (terms : list jsstring)
      (mode : LogicMode) :
  terms <> [] ->
  evaluateField toLowerCase value terms mode =
  let values := map toLowerCase (value_list value) in
  let termsLower := map toLowerCase terms in
  match mode with
  | Disable => true
  | Or => existsb (fun term => existsb (fun v => includes v term) values) termsLower
  | And => forallb (fun term => existsb (fun v => includes v term) values) termsLower
  | Not =>
      forallb (fun term => forallb (fun v => negb (includes v term)) values) termsLower
  end.
Proof.
  intros H. destruct terms as [|t terms]; [congruence|].
  destruct mode, value; reflexivity.
Qed.

Lemma some_value_spec (values : list jsstring) (t : jsstring) :
  existsb (fun v => includes v (toLowerCase t)) (map toLowerCase values) = true <->
  exists v, In v values /\ contains_ci toLowerCase v t.
Proof.
  rewrite existsb_exists. split.
  - intros [lv [Hin Hinc]]. apply in_map_iff in Hin as [v [<- Hv]].
    exists v. split; [exact Hv | apply includes_lower; exact Hinc].
  - intros [v [Hv Hc]]. exists (toLowerCase v).
    split; [apply in_map; exact Hv | apply includes_lower; exact Hc].
Qed.

Lemma no_value_spec (values : list jsstring) (t : jsstring) :
  forallb (fun v => negb (includes v (toLowerCase t))) (map toLowerCase values) = true <->
  forall v, In v values -> ~ contains_ci toLowerCase v t.
Proof.
  rewrite forallb_forall. split.
  - intros H v Hv Hc. apply includes_lower in Hc.
    specialize (H (toLowerCase v) (in_map _ _ _ Hv)).
    rewrite Hc in H; discriminate.
  - intros H lv Hin. apply in_map_iff in Hin as [v [<- Hv]].
    apply negb_true_iff. destruct (includes _ _) eqn:E; [|reflexivity].
    apply includes_lower in E. destruct (H v Hv E).
Qed.

(** C1. With at least one term, [evaluateField] decides: in mode [or],
    whether some term occurs (case-insensitively, as a substring) in some
    value; in mode [and], whether every term occurs in at least one value;
    in mode [not], whether no term occurs in any value.  A scalar value
    counts as the one-element sequence. *)
Theorem evaluateField_modes (value : FieldValue) (terms : list jsstring) :
  terms <> [] ->
  (evaluateField toLowerCase value terms Or = true <->
   exists t v, In t terms /\ In v (value_list value) /\
               contains_ci toLowerCase v t) /\
  (evaluateField toLowerCase value terms And = true <->
   forall t, In t terms ->
             exists v, In v (value_list value) /\ contains_ci toLowerCase v t) /\
  (evaluateField toLowerCase value terms Not = true <->
   forall t v, In t terms -> In v (value_list value) ->
               ~ contains_ci toLowerCase v t).
Proof.
  intros H. rewrite !(evaluateField_nonempty value _ H). cbv zeta.
  split; [|split].
  - rewrite existsb_exists. split.
    + intros [lt [Hin Hex]]. apply in_map_iff in Hin as [t [<- Ht]].
      apply some_value_spec in Hex as [v [Hv Hc]]. eauto.
    + intros [t [v [Ht [Hv Hc]]]]. exists (toLowerCase t).
      split; [apply in_map; exact Ht | apply some_value_spec; eauto].
  - rewrite forallb_forall. split.
    + intros Hall t Ht. apply some_value_spec, Hall, in_map, Ht.
    + intros Hall lt Hin. apply in_map_iff in Hin as [t [<- Ht]].
      apply some_value_spec, Hall, Ht.
  - rewrite forallb_forall. split.
    + intros Hall t v Ht Hv.
      exact (proj1 (no_value_spec _ t) (Hall _ (in_map _ _ _ Ht)) v Hv).
    + intros Hall lt Hin. apply in_map_iff in Hin as [t [<- Ht]].
      apply no_value_spec. intros v Hv. exact (Hall t v Ht Hv).
Qed.

(** C4. With no terms at all, [evaluateField] is true in the modes [not]
    and [disable] and false in the modes [or] and [and], whatever the
    value. *)
Theorem evaluateField_no_terms (value : FieldValue) :
  evaluateField toLowerCase value [] Not = true /\
  evaluateField toLowerCase value [] Disable = true /\
  evaluateField toLowerCase value [] Or = false /\
  evaluateField toLowerCase value [] And = false.
Proof. destruct value; repeat split; reflexivity. Qed.

End EvaluatorFacts.

Lemma evaluateField_modes_witness :
  [str "cat"; str "fish"] <> [] /\
  evaluateField ascii_toLowerCase (Many [str "Cat"; str "Dog"])
                [str "cat"; str "fish"] Or = true /\
  evaluateField ascii_toLowerCase (Many [str "Cat"; str "Dog"])
                [str "cat"; str "fish"] And = false /\
  (exists t v, In t [str "cat"; str "fish"] /\
               In v (value_list (Many [str "Cat"; str "Dog"])) /\
               contains_ci ascii_toLowerCase v t).
Proof.
  assert (H : [str "cat"; str "fish"] <> []) by discriminate.
  split; [exact H|]. split; [reflexivity|]. split; [reflexivity|].
  apply (proj1 (evaluateField_modes ascii_toLowerCase
                  (Many [str "Cat"; str "Dog"]) H)).
  reflexivity.
Defined.

(** ** The matchers *)

Lemma lit_spec (p s r : jsstring) : lit p s = Some r <-> s = p ++ r.
Proof.
  revert s; induction p as [|c p IH]; intros s; simpl.
  - split; congruence.
  - destruct s as [|d s]; [split; discriminate|].
    destruct (N.eqb_spec d c) as [->|Hne].
    + rewrite IH. split; [intros ->; reflexivity | intros E; injection E; auto].
    + split; [discriminate | intros E; injection E; intros; contradiction].
Qed.

Lemma lit_app (p r : jsstring) : lit p (p ++ r) = Some r.
Proof. apply lit_spec; reflexivity. Qed.

Lemma lit_head_mismatch (c d : N) (p s : jsstring) :
  d <> c -> lit (c :: p) (d :: s) = None.
Proof. intros H; simpl. destruct (N.eqb_spec d c); [contradiction | reflexivity]. Qed.

Section Matchers.

Variable A : Type.
Variable k : jsstring -> jsstring -> option A.

(** What a lazy group returns was accepted by its continuation after a
    capture free of line terminators. *)
Lemma lazy_dot_sound (cap s : jsstring) (r : A) :
  lazy_dot k cap s = Some r ->
  exists g rest, s = g ++ rest /\ no_line_terminator g /\
                 k (cap ++ g) rest = Some r.
Proof.
  revert cap; induction s as [|c s IH]; intros cap; simpl.
  - destruct (k cap []) eqn:E; [|discriminate].
    intros [= <-]. exists [], []. split; [reflexivity|]. split; [reflexivity|].
    rewrite app_nil_r; exact E.
  - destruct (k cap (c :: s)) eqn:E.
    + intros [= <-]. exists [], (c :: s). split; [reflexivity|].
      split; [reflexivity|]. rewrite app_nil_r; exact E.
    + destruct (is_line_terminator c) eqn:Ec; [discriminate|].
      intros H. apply IH in H as [g [rest [-> [Hg Hk]]]].
      exists (c :: g), rest. rewrite <- app_assoc in Hk.
      repeat split; [|exact Hk].
      unfold no_line_terminator; simpl. rewrite Ec. exact Hg.
Qed.

(** A lazy group finds a match whenever some capture free of line
    terminators makes the continuation succeed. *)
Lemma lazy_dot_complete (g rest cap : jsstring) (r : A) :
  no_line_terminator g ->
  k (cap ++ g) rest = Some r ->
  exists r', lazy_dot k cap (g ++ rest) = Some r'.
Proof.
  revert cap; induction g as [|c g IH]; intros cap Hg Hk.
  - rewrite app_nil_r in Hk. simpl.
    destruct rest; simpl; rewrite Hk; eauto.
  - simpl. destruct (k cap (c :: g ++ rest)); [eauto|].
    unfold no_line_terminator in Hg; simpl in Hg.
    apply andb_true_iff in Hg as [Hc Hg]. apply negb_true_iff in Hc.
    rewrite Hc. apply IH; [exact Hg|].
    rewrite <- app_assoc. exact Hk.
Qed.

(** The capture is the shortest one: while the continuation refuses, the
    group goes on. *)
Lemma lazy_dot_first (g rest cap : jsstring) :
  no_line_terminator g ->
  (forall g1 c g2, g = g1 ++ c :: g2 -> k (cap ++ g1) (c :: g2 ++ rest) = None) ->
  lazy_dot k cap (g ++ rest) = lazy_dot k (cap ++ g) rest.
Proof.
  revert cap; induction g as [|c g IH]; intros cap Hg Hk.
  - rewrite app_nil_r; reflexivity.
  - simpl. rewrite <- (app_nil_r cap) at 1.
    rewrite (Hk [] c g eq_refl).
    unfold no_line_terminator in Hg; simpl in Hg.
    apply andb_true_iff in Hg as [Hc Hg]. apply negb_true_iff in Hc.
    rewrite Hc. rewrite IH; [rewrite <- app_assoc; reflexivity | exact Hg |].
    intros g1 d g2 ->. rewrite <- app_assoc. apply (Hk (c :: g1) d g2 eq_refl).
Qed.

Variable m : jsstring -> option A.

Lemma search_sound (s : jsstring) (r : A) :
  search m s = Some r -> exists pre suf, s = pre ++ suf /\ m suf = Some r.
Proof.
  induction s as [|c s IH]; simpl.
  - destruct (m []) eqn:E; [|discriminate]. intros [= <-]. exists [], []; auto.
  - destruct (m (c :: s)) eqn:E.
    + intros [= <-]. exists [], (c :: s); auto.
    + intros H. apply IH in H as [pre [suf [-> Hm]]].
      exists (c :: pre), suf; auto.
Qed.

Lemma search_complete (pre suf : jsstring) (r : A) :
  m suf = Some r -> exists r', search m (pre ++ suf) = Some r'.
Proof.
  intros Hm. induction pre as [|c pre IH]; simpl.
  - destruct suf; simpl; rewrite Hm; eauto.
  - destruct (m (c :: pre ++ suf)); [eauto | exact IH].
Qed.

Lemma search_here (s : jsstring) (r : A) : m s = Some r -> search m s = Some r.
Proof. intros H. destruct s; simpl; rewrite H; reflexivity. Qed.

End Matchers.

Lemma annotated_at_sound (s : jsstring) (m : RegExpMatch) :
  annotated_at s = Some m ->
  exists g2 post,
    group2 m = Some g2 /\
    s = str "<![[" ++ group1 m ++ str "]]<" ++ g2 ++ str ">>" ++ post /\
    no_line_terminator (group1 m) /\ no_line_terminator g2.
Proof.
  unfold annotated_at. destruct (lit (str "<![[") s) as [s1|] eqn:E1; [|discriminate].
  apply lit_spec in E1. intros H.
  apply lazy_dot_sound in H as [g1 [r1 [-> [Hg1 H]]]].
  unfold annotated_tail in H. simpl app in H.
  destruct (lit (str "]]<") r1) as [s2|] eqn:E2; [|discriminate].
  apply lit_spec in E2.
  apply lazy_dot_sound in H as [g2 [r2 [-> [Hg2 H]]]].
  destruct (lit (str ">>") r2) as [s3|] eqn:E3; [|discriminate].
  apply lit_spec in E3. injection H as <-. simpl.
  exists g2, s3. subst. auto.
Qed.

Lemma bare_at_sound (s : jsstring) (m : RegExpMatch) :
  bare_at s = Some m ->
  exists post,
    group2 m = None /\ s = str "![[" ++ group1 m ++ str "]]" ++ post /\
    no_line_terminator (group1 m).
Proof.
  unfold bare_at. destruct (lit (str "![[") s) as [s1|] eqn:E1; [|discriminate].
  apply lit_spec in E1. intros H.
  apply lazy_dot_sound in H as [g1 [r1 [-> [Hg1 H]]]].
  unfold bare_tail in H. simpl app in H.
  destruct (lit (str "]]") r1) as [s2|] eqn:E2; [|discriminate].
  apply lit_spec in E2. injection H as <-. simpl.
  exists s2. subst. auto.
Qed.

Lemma bare_at_complete (g1 post : jsstring) :
  no_line_terminator g1 ->
  exists m, bare_at (str "![[" ++ g1 ++ str "]]" ++ post) = Some m.
Proof.
  intros Hg. unfold bare_at. rewrite lit_app.
  destruct (@lazy_dot_complete _ bare_tail g1 (str "]]" ++ post) []
              (mkMatch g1 None) Hg) as [r Hr].
  - unfold bare_tail. rewrite lit_app. reflexivity.
  - exists r; exact Hr.
Qed.

Lemma match_annotated_sound (line : jsstring) (m : RegExpMatch) :
  match_annotated line = Some m ->
  exists g2, group2 m = Some g2 /\ annotated_shape line (group1 m) g2.
Proof.
  intros H. apply search_sound in H as [pre [suf [-> H]]].
  apply annotated_at_sound in H as [g2 [post [E [-> [H1 H2]]]]].
  exists g2. split; [exact E|]. exists pre, post. auto.
Qed.

Lemma match_bare_sound (line : jsstring) (m : RegExpMatch) :
  match_bare line = Some m ->
  group2 m = None /\ bare_shape line (group1 m).
Proof.
  intros H. apply search_sound in H as [pre [suf [-> H]]].
  apply bare_at_sound in H as [post [E [-> H1]]].
  split; [exact E|]. exists pre, post. auto.
Qed.

Lemma match_bare_complete (line g1 : jsstring) :
  bare_shape line g1 -> exists m, match_bare line = Some m.
Proof.
  intros [pre [post [-> Hg]]].
  destruct (bare_at_complete post Hg) as [m Hm].
  exact (search_complete bare_at pre _ Hm).
Qed.

(** Whatever has the annotated shape also contains the bare shape. *)
Lemma annotated_shape_bare (line g1 g2 : jsstring) :
  annotated_shape line g1 g2 -> bare_shape line g1.
Proof.
  intros [pre [post [-> [H1 H2]]]].
  exists (pre ++ str "<"), (str "<" ++ g2 ++ str ">>" ++ post).
  split; [|exact H1].
  rewrite <- !app_assoc. reflexivity.
Qed.

Lemma lazy_dot_here (A : Type) (k : jsstring -> jsstring -> option A)
      (cap s : jsstring) (r : A) :
  k cap s = Some r -> lazy_dot k cap s = Some r.
Proof. intros H. destruct s; simpl; rewrite H; reflexivity. Qed.

(** A line that starts with the annotated form, with no [']'] in the
    reference and no ['>'] in the property text, is matched with exactly
    these two captures. *)
Lemma annotated_at_canonical (g1 g2 post : jsstring) :
  no_line_terminator g1 -> no_line_terminator g2 ->
  ~ In 93%N g1 -> ~ In 62%N g2 ->
  annotated_at (str "<![[" ++ g1 ++ str "]]<" ++ g2 ++ str ">>" ++ post)
  = Some (mkMatch g1 (Some g2)).
Proof.
  intros H1 H2 N1 N2. unfold annotated_at. rewrite lit_app.
  rewrite lazy_dot_first; [|exact H1|].
  - change ([] ++ g1) with g1. apply lazy_dot_here.
    unfold annotated_tail. rewrite lit_app.
    rewrite lazy_dot_first; [|exact H2|].
    + change ([] ++ g2) with g2. apply lazy_dot_here.
      rewrite lit_app. reflexivity.
    + intros a c b ->.
      change (str ">>") with (62%N :: [62%N]).
      rewrite lit_head_mismatch; [reflexivity|].
      intros ->. apply N2, in_or_app. right; left; reflexivity.
  - intros a c b ->. unfold annotated_tail.
    change (str "]]<") with (93%N :: [93%N; 60%N]).
    rewrite lit_head_mismatch; [reflexivity|].
    intros ->. apply N1, in_or_app. right; left; reflexivity.
Qed.

(** ** Splitting and trimming *)

Lemma split_not_nil (sep : N) (s : jsstring) : split sep s <> [].
Proof.
  destruct s as [|c s]; simpl; [discriminate|].
  destruct (N.eqb c sep); [discriminate|].
  destruct (split sep s); discriminate.
Qed.

Lemma split_no_sep (sep : N) (t : jsstring) : ~ In sep t -> split sep t = [t].
Proof.
  induction t as [|c t IH]; intros H; simpl; [reflexivity|].
  destruct (N.eqb_spec c sep) as [->|Hne].
  - destruct H; left; reflexivity.
  - rewrite IH; [reflexivity|]. intros F; apply H; right; exact F.
Qed.

Lemma split_app_sep (sep : N) (t r : jsstring) :
  ~ In sep t -> split sep (t ++ sep :: r) = t :: split sep r.
Proof.
  induction t as [|c t IH]; intros H; simpl.
  - rewrite N.eqb_refl; reflexivity.
  - destruct (N.eqb_spec c sep) as [->|Hne].
    + destruct H; left; reflexivity.
    + rewrite IH; [reflexivity|]. intros F; apply H; right; exact F.
Qed.

(** Splitting undoes joining: the pieces come back in their order, with
    repetitions and empty pieces kept. *)
Lemma split_join (sep : N) (toks : list jsstring) :
  toks <> [] -> Forall (fun t => ~ In sep t) toks ->
  split sep (join sep toks) = toks.
Proof.
  induction toks as [|t toks IH]; intros Hne Hall; [congruence|].
  inversion Hall as [|? ? Ht Hts]; subst.
  destruct toks as [|t' toks].
  - simpl. apply split_no_sep; exact Ht.
  - change (join sep (t :: t' :: toks)) with (t ++ sep :: join sep (t' :: toks)).
    rewrite split_app_sep by exact Ht.
    rewrite IH; [reflexivity | discriminate | exact Hts].
Qed.

(** Every string is the join of its pieces, none of which holds the
    separator. *)
Lemma join_split (sep : N) (s : jsstring) :
  join sep (split sep s) = s /\ Forall (fun t => ~ In sep t) (split sep s).
Proof.
  induction s as [|c s [IHj IHf]]; simpl.
  - split; [reflexivity | constructor; [intros [] | constructor]].
  - destruct (split sep s) as [|piece pieces] eqn:E;
      [destruct (split_not_nil _ _ E)|].
    destruct (N.eqb_spec c sep) as [->|Hne].
    + split; [|constructor; [intros [] | exact IHf]].
      change (join sep ([] :: piece :: pieces))
        with (sep :: join sep (piece :: pieces)).
      rewrite IHj. reflexivity.
    + inversion IHf as [|? ? Hp Hps]; subst. split.
      * simpl. destruct pieces; reflexivity.
      * constructor; [|exact Hps].
        intros [F|F]; [congruence | exact (Hp F)].
Qed.

Lemma trimStart_spec (s : jsstring) :
  exists l, s = l ++ trimStart s /\ forallb is_trimmed_unit l = true /\
            (forall c p', trimStart s = c :: p' -> is_trimmed_unit c = false).
Proof.
  induction s as [|c s [l [E [Hl Hh]]]]; simpl.
  - exists []. repeat split; discriminate.
  - destruct (is_trimmed_unit c) eqn:Ec.
    + exists (c :: l). simpl. rewrite Ec, <- E. repeat split; assumption.
    + exists []. repeat split. intros d p' [= <- _]. exact Ec.
Qed.

Lemma trimEnd_spec (s : jsstring) :
  exists r, s = trimEnd s ++ r /\ forallb is_trimmed_unit r = true /\
            (forall p' c, trimEnd s = p' ++ [c] -> is_trimmed_unit c = false).
Proof.
  unfold trimEnd. destruct (trimStart_spec (rev s)) as [l [E [Hl Hh]]].
  exists (rev l). split; [|split].
  - rewrite <- rev_app_distr, <- E, rev_involutive. reflexivity.
  - rewrite forallb_forall in *. intros x Hx. apply Hl, in_rev, Hx.
  - intros p' c Ep. apply (Hh c (rev p')).
    rewrite <- (rev_involutive (trimStart (rev s))), Ep, rev_app_distr.
    reflexivity.
Qed.

Lemma trim_spec (s : jsstring) : trimmed_of s (trim s).
Proof.
  unfold trim.
  destruct (trimStart_spec s) as [l [El [Hl Hh]]].
  destruct (trimEnd_spec (trimStart s)) as [r [Er [Hr Ht]]].
  exists l, r. split; [|split; [|split; [|split]]]; try assumption.
  - rewrite <- Er. exact El.
  - intros c p' E. apply (Hh c (p' ++ r)). rewrite Er at 1. rewrite E. reflexivity.
Qed.

Lemma Forall2_trim (toks : list jsstring) : Forall2 trimmed_of toks (map trim toks).
Proof. induction toks; simpl; constructor; [apply trim_spec | assumption]. Qed.

(** ** The line parser *)

Lemma parseGalleryLine_annotated (line gallery : jsstring) (m : RegExpMatch)
      (g2 : jsstring) :
  match_annotated line = Some m -> group2 m = Some g2 ->
  parseGalleryLine line gallery =
  Some (mkOne (group1 m) gallery (map trim (split comma g2))).
Proof.
  intros Hm Hg. unfold parseGalleryLine. rewrite Hm, Hg. reflexivity.
Qed.

(** C3, as the code has it.  When the annotated pattern matches with an
    empty property text, the record holds exactly one property, the empty
    string; the reference and the source name are the captured reference
    and the given name. *)
Theorem parseGalleryLine_empty_segment (line gallery : jsstring) (m : RegExpMatch) :
  match_annotated line = Some m -> group2 m = Some [] ->
  parseGalleryLine line gallery = Some (mkOne (group1 m) gallery [[]]).
Proof.
  intros Hm Hg. rewrite (parseGalleryLine_annotated line gallery Hm Hg).
  reflexivity.
Qed.

Lemma parseGalleryLine_empty_segment_witness :
  parseGalleryLine (str "<![[x]]<>>") (str "Notes") =
  Some (mkOne (str "x") (str "Notes") [[]]).
Proof.
  exact (@parseGalleryLine_empty_segment (str "<![[x]]<>>") (str "Notes")
           (mkMatch (str "x") (Some [])) eq_refl eq_refl).
Defined.

(** C3, as the specification words it, fails: the line [<![[x]]<>>] matches
    the annotated pattern with an empty property text, and its record has
    a property. *)
Lemma parseGalleryLine_empty_segment_counterexample :
  ~ (forall (line gallery : jsstring) (m : RegExpMatch),
        match_annotated line = Some m -> group2 m = Some [] ->
        exists e, parseGalleryLine line gallery = Some e /\ one_properties e = []).
Proof.
  intros H.
  destruct (H (str "<![[x]]<>>") (str "Notes") (mkMatch (str "x") (Some []))
              eq_refl eq_refl) as [e [He Hp]].
  vm_compute in He. injection He as <-. discriminate Hp.
Qed.

(** Every property text is the join of its comma-free pieces. *)
Lemma property_text_tokens (g2 : jsstring) :
  exists toks,
    toks <> [] /\ Forall (fun t => ~ In comma t) toks /\ join comma toks = g2.
Proof.
  destruct (join_split comma g2) as [Hj Hf].
  exists (split comma g2). split; [apply split_not_nil | auto].
Qed.

(** A line that begins with the annotated form is parsed into the
    reference and the trimmed tokens written in it. *)
Lemma parseGalleryLine_canonical (g1 post gallery : jsstring) (toks : list jsstring) :
  no_line_terminator g1 -> ~ In 93%N g1 ->
  toks <> [] ->
  Forall (fun t => ~ In comma t /\ ~ In 62%N t /\ no_line_terminator t) toks ->
  parseGalleryLine (str "<![[" ++ g1 ++ str "]]<" ++ join comma toks ++ str ">>" ++ post)
                   gallery
  = Some (mkOne g1 gallery (map trim toks)).
Proof.
  intros H1 N1 Hne Hall.
  assert (Hj : no_line_terminator (join comma toks) /\ ~ In 62%N (join comma toks)).
  { clear Hne. induction Hall as [|t ts [_ [Ht Hl]] Hts [IHl IHn]].
    - split; [reflexivity | intros []].
    - destruct ts as [|t' ts]; [split; assumption|].
      change (join comma (t :: t' :: ts)) with (t ++ comma :: join comma (t' :: ts)).
      split.
      + unfold no_line_terminator in *. rewrite forallb_app, Hl. simpl. exact IHl.
      + rewrite in_app_iff. simpl. intros [F | [F | F]];
          [exact (Ht F) | discriminate F | exact (IHn F)]. }
  destruct Hj as [H2 N2].
  assert (Hm : match_annotated
                 (str "<![[" ++ g1 ++ str "]]<" ++ join comma toks ++ str ">>" ++ post)
               = Some (mkMatch g1 (Some (join comma toks)))).
  { apply search_here, annotated_at_canonical; assumption. }
  rewrite (parseGalleryLine_annotated _ gallery Hm eq_refl).
  rewrite split_join; [reflexivity | exact Hne|].
  apply Forall_impl with (2 := Hall). tauto.
Qed.

(** C5. On a line matched by the annotated pattern, the properties are the
    comma-separated pieces of the property text, each with the white space
    around it removed: in their order, with repetitions and with empty
    pieces kept.  So ["a, b ,c"] gives [a; b; c] and ["a,,b"] gives
    [a; ""; b]. *)
Theorem parseGalleryLine_properties (line gallery : jsstring) (m : RegExpMatch)
        (toks : list jsstring) :
  match_annotated line = Some m ->
  toks <> [] -> Forall (fun t => ~ In comma t) toks ->
  group2 m = Some (join comma toks) ->
  (parseGalleryLine line gallery = Some (mkOne (group1 m) gallery (map trim toks)) /\
   Forall2 trimmed_of toks (map trim toks)) /\
  parseGalleryLine (str "<![[x]]<a, b ,c>>") gallery =
    Some (mkOne (str "x") gallery [str "a"; str "b"; str "c"]) /\
  parseGalleryLine (str "<![[x]]<a,,b>>") gallery =
    Some (mkOne (str "x") gallery [str "a"; str ""; str "b"]).
Proof.
  intros Hm Hne Hall Hg. split; [split|split].
  - rewrite (parseGalleryLine_annotated line gallery Hm Hg).
    rewrite split_join by assumption. reflexivity.
  - apply Forall2_trim.
  - reflexivity.
  - reflexivity.
Qed.

Lemma parseGalleryLine_properties_witness :
  parseGalleryLine (str "<![[pic.png]]< red ,,red,large >>") (str "Notes") =
  Some (mkOne (str "pic.png") (str "Notes")
              [str "red"; str ""; str "red"; str "large"]).
Proof.
  refine (proj1 (proj1
    (@parseGalleryLine_properties
       (str "<![[pic.png]]< red ,,red,large >>") (str "Notes")
       (mkMatch (str "pic.png") (Some (str " red ,,red,large ")))
       [str " red "; str ""; str "red"; str "large "]
       eq_refl _ _ eq_refl))).
  - discriminate.
  - repeat constructor; vm_compute; intuition discriminate.
Defined.

(** C8. The annotated pattern is tried first.  A line that it matches
    also matches the bare pattern, and still the record has the reference
    and the properties of the annotated match: the properties are the
    comma-separated tokens of the text between the angle brackets, each
    trimmed, in their order; they are never the empty sequence a bare
    match would give. *)
Theorem parseGalleryLine_annotated_first (line gallery : jsstring) (m : RegExpMatch) :
  match_annotated line = Some m ->
  exists g2,
    group2 m = Some g2 /\
    annotated_shape line (group1 m) g2 /\
    (exists b, match_bare line = Some b) /\
    parseGalleryLine line gallery =
      Some (mkOne (group1 m) gallery (map trim (split comma g2))) /\
    map trim (split comma g2) <> [] /\
    (exists toks,
        toks <> [] /\ Forall (fun t => ~ In comma t) toks /\
        join comma toks = g2) /\
    (forall toks,
        toks <> [] -> Forall (fun t => ~ In comma t) toks ->
        join comma toks = g2 ->
        parseGalleryLine line gallery =
          Some (mkOne (group1 m) gallery (map trim toks)) /\
        Forall2 trimmed_of toks (map trim toks)).
Proof.
  intros Hm. destruct (match_annotated_sound line Hm) as [g2 [Hg Hs]].
  exists g2. split; [exact Hg|]. split; [exact Hs|].
  split; [|split; [|split; [|split]]].
  - exact (match_bare_complete (annotated_shape_bare Hs)).
  - exact (parseGalleryLine_annotated line gallery Hm Hg).
  - intros E. apply map_eq_nil in E. exact (split_not_nil _ _ E).
  - apply property_text_tokens.
  - intros toks Hne Hall Hj. split; [|apply Forall2_trim].
    rewrite (parseGalleryLine_annotated line gallery Hm Hg).
    rewrite <- Hj, split_join by assumption. reflexivity.
Qed.

Lemma parseGalleryLine_annotated_first_witness :
  match_bare (str "![[a]] <![[b]]< p,,q >>") = Some (mkMatch (str "a") None) /\
  parseGalleryLine (str "![[a]] <![[b]]< p,,q >>") (str "Notes") =
    Some (mkOne (str "b") (str "Notes") [str "p"; str ""; str "q"]).
Proof.
  split; [reflexivity|].
  destruct (@parseGalleryLine_annotated_first
              (str "![[a]] <![[b]]< p,,q >>") (str "Notes")
              (mkMatch (str "b") (Some (str " p,,q "))) eq_refl)
    as [g2 [Hg [_ [_ [_ [_ [_ Hall]]]]]]].
  injection Hg as <-.
  refine (proj1 (Hall [str " p"; str ""; str "q "] _ _ eq_refl)).
  - discriminate.
  - repeat constructor; simpl; intuition discriminate.
Defined.

(** C9. On a line that only the bare pattern matches, the record has no
    properties, its reference is the captured text as it stands in the
    line, between [![[] and the first []]] after it, and its source name is
    the name that was passed in. *)
Theorem parseGalleryLine_bare (line gallery : jsstring) (m : RegExpMatch) :
  match_annotated line = None -> match_bare line = Some m ->
  parseGalleryLine line gallery = Some (mkOne (group1 m) gallery []) /\
  bare_shape line (group1 m).
Proof.
  intros Ha Hb. destruct (match_bare_sound line Hb) as [Hg Hs].
  split; [|exact Hs].
  unfold parseGalleryLine. rewrite Ha, Hb, Hg. reflexivity.
Qed.

Lemma parseGalleryLine_bare_witness :
  parseGalleryLine (str "see ![[Img One.PNG]] here") (str "My Notes") =
    Some (mkOne (str "Img One.PNG") (str "My Notes") []) /\
  bare_shape (str "see ![[Img One.PNG]] here") (str "Img One.PNG").
Proof.
  exact (@parseGalleryLine_bare (str "see ![[Img One.PNG]] here") (str "My Notes")
           (mkMatch (str "Img One.PNG") None) eq_refl eq_refl).
Defined.

(** ** The map *)

Section MapFacts.

Variable V : Type.

Lemma map_get_set_same (m : JsMap V) (k : jsstring) (v : V) :
  map_get (map_set m k v) k = Some v.
Proof.
  induction m as [|[k' v'] m IH]; simpl.
  - rewrite str_eqb_refl; reflexivity.
  - destruct (str_eqb k' k) eqn:E; simpl; rewrite E; [reflexivity | exact IH].
Qed.

Lemma map_get_set_other (m : JsMap V) (k k0 : jsstring) (v : V) :
  k <> k0 -> map_get (map_set m k v) k0 = map_get m k0.
Proof.
  intros Hne. induction m as [|[k' v'] m IH]; simpl.
  - apply str_eqb_neq in Hne. rewrite Hne; reflexivity.
  - destruct (str_eqb k' k) eqn:E; simpl.
    + apply str_eqb_eq in E; subst k'.
      apply str_eqb_neq in Hne. rewrite Hne; reflexivity.
    + rewrite IH; reflexivity.
Qed.

Lemma map_set_get_id (m : JsMap V) (k : jsstring) (v : V) :
  map_get m k = Some v -> map_set m k v = m.
Proof.
  induction m as [|[k' v'] m IH]; simpl; [discriminate|].
  destruct (str_eqb k' k) eqn:E.
  - intros [= ->]; reflexivity.
  - intros H; rewrite (IH H); reflexivity.
Qed.

Lemma map_get_In (m : JsMap V) (k : jsstring) (v : V) :
  map_get m k = Some v -> In (k, v) m.
Proof.
  induction m as [|[k' v'] m IH]; simpl; [discriminate|].
  destruct (str_eqb k' k) eqn:E.
  - apply str_eqb_eq in E; subst. intros [= ->]; left; reflexivity.
  - intros H; right; exact (IH H).
Qed.

Lemma map_set_new (m : JsMap V) (k : jsstring) (v : V) :
  ~ In k (map fst m) -> map_set m k v = m ++ [(k, v)].
Proof.
  induction m as [|[k' v'] m IH]; simpl; intros H; [reflexivity|].
  destruct (str_eqb k' k) eqn:E.
  - apply str_eqb_eq in E; subst. destruct H; auto.
  - rewrite IH; [reflexivity | tauto].
Qed.

Lemma Forall_map_set (P : jsstring * V -> Prop) (m : JsMap V) (k : jsstring) (v : V) :
  Forall P m -> (forall k', P (k', v)) -> Forall P (map_set m k v).
Proof.
  intros Hm Hv. induction Hm as [|[k' v'] m Hx Hm IH]; simpl.
  - constructor; [apply Hv | constructor].
  - destruct (str_eqb k' k); constructor; auto.
Qed.

End MapFacts.

(** ** The aggregator *)

Lemma fold_push_app (A B : Type) (f : B -> option A) (l : list B) (acc : list A) :
  fold_left (fun acc x => match f x with Some y => push acc y | None => acc end) l acc
  = acc ++ flat_map (fun x => match f x with Some y => [y] | None => [] end) l.
Proof.
  revert acc; induction l as [|x l IH]; intros acc; simpl.
  - rewrite app_nil_r; reflexivity.
  - rewrite IH. destruct (f x); [unfold push; rewrite <- app_assoc|]; reflexivity.
Qed.

Lemma parse_lines_blocks (rawData : list RawGalleryData) :
  parse_lines rawData = flat_map parse_block rawData.
Proof.
  unfold parse_lines.
  assert (G : forall acc,
    fold_left
      (fun parsedEntries block =>
         fold_left
           (fun parsedEntries line =>
              match parseGalleryLine line (galleryName block) with
              | Some parsed => push parsedEntries parsed
              | None => parsedEntries
              end)
           (content block) parsedEntries)
      rawData acc = acc ++ flat_map parse_block rawData).
  { induction rawData as [|b bs IH]; intros acc; simpl.
    - rewrite app_nil_r; reflexivity.
    - rewrite IH.
      rewrite (fold_push_app (fun line => parseGalleryLine line (galleryName b))).
      rewrite <- app_assoc. reflexivity. }
  exact (G []).
Qed.

Lemma merge_all_app (l1 l2 : list oneGalleryEntry) (m : JsMap GalleryEntry) :
  merge_all (l1 ++ l2) m = merge_all l2 (merge_all l1 m).
Proof. apply fold_left_app. Qed.

Lemma add_gallery_galleries (e : GalleryEntry) (g x : jsstring) :
  In x (galleries (add_gallery e g)) <-> x = g \/ In x (galleries e).
Proof.
  unfold add_gallery. destruct (array_includes (galleries e) g) eqn:E.
  - apply array_includes_In in E. split; [auto | intros [->|H]; assumption].
  - simpl. unfold push. rewrite in_app_iff. simpl. intuition congruence.
Qed.

Lemma add_gallery_properties (e : GalleryEntry) (g : jsstring) :
  properties (add_gallery e g) = properties e.
Proof. unfold add_gallery. destruct (array_includes _ _); reflexivity. Qed.

Lemma add_property_galleries (e : GalleryEntry) (p : jsstring) :
  galleries (add_property e p) = galleries e.
Proof. unfold add_property. destruct (array_includes _ _); reflexivity. Qed.

Lemma add_property_properties (e : GalleryEntry) (p x : jsstring) :
  In x (properties (add_property e p)) <-> x = p \/ In x (properties e).
Proof.
  unfold add_property. destruct (array_includes (properties e) p) eqn:E.
  - apply array_includes_In in E. split; [auto | intros [->|H]; assumption].
  - simpl. unfold push. rewrite in_app_iff. simpl. intuition congruence.
Qed.

Lemma add_properties_galleries (ps : list jsstring) (e : GalleryEntry) :
  galleries (fold_left add_property ps e) = galleries e.
Proof.
  revert e; induction ps as [|p ps IH]; intros e; simpl; [reflexivity|].
  rewrite IH. apply add_property_galleries.
Qed.

Lemma add_properties_properties (ps : list jsstring) (e : GalleryEntry) (x : jsstring) :
  In x (properties (fold_left add_property ps e)) <-> In x ps \/ In x (properties e).
Proof.
  revert e; induction ps as [|p ps IH]; intros e; simpl; [tauto|].
  rewrite IH, add_property_properties. intuition congruence.
Qed.

Lemma add_gallery_nodup (e : GalleryEntry) (g : jsstring) :
  entry_nodup e -> entry_nodup (add_gallery e g).
Proof.
  intros [Hg Hp]. unfold add_gallery.
  destruct (array_includes (galleries e) g) eqn:E; [split; assumption|].
  apply array_includes_not_In in E. split; [|exact Hp]. simpl. unfold push.
  apply NoDup_rev in Hg. rewrite <- (rev_involutive (galleries e ++ [g])).
  apply NoDup_rev. rewrite rev_app_distr. simpl.
  constructor; [rewrite <- in_rev; exact E | exact Hg].
Qed.

Lemma add_property_nodup (e : GalleryEntry) (p : jsstring) :
  entry_nodup e -> entry_nodup (add_property e p).
Proof.
  intros [Hg Hp]. unfold add_property.
  destruct (array_includes (properties e) p) eqn:E; [split; assumption|].
  apply array_includes_not_In in E. split; [exact Hg|]. simpl. unfold push.
  apply NoDup_rev in Hp. rewrite <- (rev_involutive (properties e ++ [p])).
  apply NoDup_rev. rewrite rev_app_distr. simpl.
  constructor; [rewrite <- in_rev; exact E | exact Hp].
Qed.

Lemma add_properties_nodup (ps : list jsstring) (e : GalleryEntry) :
  entry_nodup e -> entry_nodup (fold_left add_property ps e).
Proof.
  revert e; induction ps as [|p ps IH]; intros e H; simpl; [exact H|].
  apply IH, add_property_nodup, H.
Qed.

Lemma merge_entry_nodup (m : JsMap GalleryEntry) (entry : oneGalleryEntry) :
  index_nodup m -> index_nodup (merge_entry m entry).
Proof.
  intros Hm. unfold merge_entry. apply Forall_map_set; [exact Hm|].
  intros k'. simpl. apply add_properties_nodup, add_gallery_nodup.
  destruct (map_get m (one_filename entry)) as [e|] eqn:E.
  - apply map_get_In in E. unfold index_nodup in Hm.
    rewrite Forall_forall in Hm. exact (Hm _ E).
  - split; constructor.
Qed.

Lemma merge_all_nodup (l : list oneGalleryEntry) (m : JsMap GalleryEntry) :
  index_nodup m -> index_nodup (merge_all l m).
Proof.
  revert m; induction l as [|x l IH]; intros m H; simpl; [exact H|].
  apply IH, merge_entry_nodup, H.
Qed.

(** C7. Whatever the blocks, after every step of the fold over the parsed
    lines (so also at its end, in the index that [extract] returns) no entry
    of the index holds a source name twice or a property twice. *)
Theorem extract_no_duplicates (rawData : list RawGalleryData) (n : nat) :
  index_nodup (merge_all (firstn n (parse_lines rawData)) []) /\
  index_nodup (extract_from rawData).
Proof.
  split; apply merge_all_nodup; constructor.
Qed.

Lemma add_properties_id (ps : list jsstring) (e : GalleryEntry) :
  incl ps (properties e) -> fold_left add_property ps e = e.
Proof.
  induction ps as [|p ps IH]; intros H; simpl; [reflexivity|].
  assert (Hp : add_property e p = e).
  { unfold add_property.
    rewrite (proj2 (array_includes_In (properties e) p)); [reflexivity|].
    apply H; left; reflexivity. }
  rewrite Hp. apply IH. intros x Hx. apply H; right; exact Hx.
Qed.

Lemma merge_entry_absorbed_id (m : JsMap GalleryEntry) (entry : oneGalleryEntry) :
  absorbed m entry -> merge_entry m entry = m.
Proof.
  intros [e [Hget [Hg Hp]]]. unfold merge_entry. rewrite Hget.
  assert (E : add_gallery e (one_gallery entry) = e).
  { unfold add_gallery.
    rewrite (proj2 (array_includes_In (galleries e) (one_gallery entry)) Hg).
    reflexivity. }
  rewrite E, (add_properties_id _ Hp). apply map_set_get_id, Hget.
Qed.

Lemma merge_entry_absorbs (m : JsMap GalleryEntry) (entry : oneGalleryEntry) :
  absorbed (merge_entry m entry) entry.
Proof.
  unfold absorbed, merge_entry. rewrite map_get_set_same.
  eexists. split; [reflexivity|]. split.
  - rewrite add_properties_galleries. apply add_gallery_galleries. left; reflexivity.
  - intros x Hx. apply add_properties_properties. left; exact Hx.
Qed.

Lemma merge_entry_keeps_absorbed (m : JsMap GalleryEntry) (entry x : oneGalleryEntry) :
  absorbed m x -> absorbed (merge_entry m entry) x.
Proof.
  intros [e [Hget [Hg Hp]]]. unfold absorbed, merge_entry.
  destruct (str_eqb (one_filename entry) (one_filename x)) eqn:E.
  - apply str_eqb_eq in E. rewrite E, Hget, map_get_set_same.
    eexists. split; [reflexivity|]. split.
    + rewrite add_properties_galleries. apply add_gallery_galleries. right; exact Hg.
    + intros y Hy. apply add_properties_properties. right.
      rewrite add_gallery_properties. apply Hp, Hy.
  - apply str_eqb_neq in E. rewrite (map_get_set_other _ _ E).
    exists e. auto.
Qed.

Lemma merge_all_keeps_absorbed (l : list oneGalleryEntry) (m : JsMap GalleryEntry)
      (x : oneGalleryEntry) :
  absorbed m x -> absorbed (merge_all l m) x.
Proof.
  revert m; induction l as [|y l IH]; intros m H; simpl; [exact H|].
  apply IH, merge_entry_keeps_absorbed, H.
Qed.

Lemma merge_all_absorbs (l : list oneGalleryEntry) (m : JsMap GalleryEntry) :
  Forall (absorbed (merge_all l m)) l.
Proof.
  revert m; induction l as [|y l IH]; intros m; simpl; constructor.
  - apply merge_all_keeps_absorbed, merge_entry_absorbs.
  - apply IH.
Qed.

Lemma merge_all_absorbed_id (l : list oneGalleryEntry) (m : JsMap GalleryEntry) :
  Forall (absorbed m) l -> merge_all l m = m.
Proof.
  induction 1 as [|y l Hy Hl IH]; simpl; [reflexivity|].
  rewrite (merge_entry_absorbed_id Hy). exact IH.
Qed.

(** Folding the same parsed lines a second time changes nothing. *)
Lemma extract_from_twice (rawData : list RawGalleryData) :
  extract_from (rawData ++ rawData) = extract_from rawData.
Proof.
  unfold extract_from. rewrite !parse_lines_blocks, flat_map_app, merge_all_app.
  apply merge_all_absorbed_id, merge_all_absorbs.
Qed.

(** C6. Aggregating a block twice gives the index of aggregating it once:
    the same entries in the same order, each with the same sources and the
    same properties. *)
Theorem extract_from_idempotent (block : RawGalleryData) :
  extract_from [block; block] = extract_from [block] /\
  forall itemId,
    map_get (extract_from [block; block]) itemId =
    map_get (extract_from [block]) itemId.
Proof.
  assert (E : extract_from [block; block] = extract_from [block])
    by exact (extract_from_twice [block]).
  split; [exact E | intros itemId; rewrite E; reflexivity].
Qed.

(** ** The query filter *)

Section FilterFacts.

Variable toLowerCase : jsstring -> jsstring.

Lemma disable_or_match (value : FieldValue) (terms : list jsstring) (mode : LogicMode) :
  is_disable mode || evaluateField toLowerCase value terms mode =
  evaluateField toLowerCase value terms mode.
Proof. destruct mode; reflexivity. Qed.

Lemma shouldInclude_fields (filters : MultiSearchFilter) (key : jsstring)
      (entry : GalleryEntry) :
  shouldInclude toLowerCase filters key entry =
  fields_match toLowerCase filters key entry.
Proof.
  unfold shouldInclude, fields_match. simpl forallb.
  rewrite !disable_or_match, andb_true_r, andb_assoc. reflexivity.
Qed.

Lemma filter_entries_acc (filters : MultiSearchFilter)
      (l : JsMap GalleryEntry) (acc : JsMap VirtualGalleryEntry) :
  NoDup (map fst l) ->
  (forall k, In k (map fst l) -> ~ In k (map fst acc)) ->
  fold_left
    (fun virtualMap kv =>
       let '(key, entry) := kv in
       if shouldInclude toLowerCase filters key entry
       then map_set virtualMap key
              (mkVirtual (properties entry) (galleries entry))
       else virtualMap)
    l acc
  = acc ++ map view
             (filter (fun kv => fields_match toLowerCase filters (fst kv) (snd kv)) l).
Proof.
  revert acc; induction l as [|[key entry] l IH]; intros acc Hnd Hdis; simpl.
  - rewrite app_nil_r; reflexivity.
  - simpl in Hnd. inversion Hnd as [|? ? Hk Hl]; subst.
    rewrite shouldInclude_fields.
    destruct (fields_match toLowerCase filters key entry).
    + rewrite IH; [|exact Hl|].
      * rewrite map_set_new by (apply Hdis; left; reflexivity).
        rewrite <- app_assoc. reflexivity.
      * intros k Hin. rewrite map_set_new by (apply Hdis; left; reflexivity).
        rewrite map_app, in_app_iff. simpl.
        intros [F | [F | []]]; [exact (Hdis k (or_intror Hin) F)|].
        subst k. exact (Hk Hin).
    + apply IH; [exact Hl|]. intros k Hin. apply Hdis; right; exact Hin.
Qed.

(** C2. The filtered index is the full index, in its order, without the
    entries for which one of the three field evaluations is false (the
    key against the file-name terms, the sources against the gallery
    terms, the properties against the property terms; a field in mode
    [disable] evaluates to true).  An entry that stays keeps its key, its
    sources and its properties. *)
Theorem filter_entries_spec (filters : MultiSearchFilter)
        (fullImageMap : JsMap GalleryEntry) :
  NoDup (map fst fullImageMap) ->
  filter_entries toLowerCase filters fullImageMap =
    map view
        (filter (fun kv => fields_match toLowerCase filters (fst kv) (snd kv))
                fullImageMap) /\
  (forall key v,
      In (key, v) (filter_entries toLowerCase filters fullImageMap) <->
      exists entry,
        In (key, entry) fullImageMap /\
        v = mkVirtual (properties entry) (galleries entry) /\
        evaluateField toLowerCase (Scalar key)
                      (filenameTerms filters) (filenameMode filters) = true /\
        evaluateField toLowerCase (Many (galleries entry))
                      (galleryTerms filters) (galleryMode filters) = true /\
        evaluateField toLowerCase (Many (properties entry))
                      (propertyTerms filters) (propertyMode filters) = true) /\
  (forall value terms, evaluateField toLowerCase value terms Disable = true).
Proof.
  intros Hnd.
  assert (E : filter_entries toLowerCase filters fullImageMap =
              map view
                  (filter (fun kv => fields_match toLowerCase filters (fst kv) (snd kv))
                          fullImageMap)).
  { unfold filter_entries. rewrite filter_entries_acc; [reflexivity | exact Hnd|].
    intros k _ []. }
  split; [exact E|]. split; [|intros; reflexivity].
  intros key v. rewrite E, in_map_iff. split.
  - intros [[k entry] [Hv Hin]]. apply filter_In in Hin as [Hin Hm].
    unfold view in Hv; simpl in Hv. injection Hv as -> <-.
    unfold fields_match in Hm; simpl in Hm.
    apply andb_true_iff in Hm as [Hm H3]. apply andb_true_iff in Hm as [H1 H2].
    exists entry. auto.
  - intros [entry [Hin [-> [H1 [H2 H3]]]]]. exists (key, entry).
    split; [reflexivity|]. apply filter_In. split; [exact Hin|].
    unfold fields_match; simpl. rewrite H1, H2, H3. reflexivity.
Qed.

End FilterFacts.

Lemma filter_entries_spec_witness :
  let full :=
    [ (str "img1.png",
       mkEntry (str "img1.png") [str "A"; str "B"] [str "red"; str "large"]);
      (str "cat.jpg", mkEntry (str "cat.jpg") [str "B"] []) ] in
  let filters := mkFilter Or Disable Disable [str "IMG1"] [] [] in
  NoDup (map fst full) /\
  filter_entries ascii_toLowerCase filters full =
  [ (str "img1.png", mkVirtual [str "red"; str "large"] [str "A"; str "B"]) ].
Proof.
  intros full filters.
  assert (Hnd : NoDup (map fst full)).
  { constructor; [|constructor; [|constructor]]; simpl; intuition discriminate. }
  split; [exact Hnd|].
  exact (proj1 (filter_entries_spec ascii_toLowerCase filters full Hnd)).
Defined.

(** ** The source selector *)

Lemma find_has_document (vault : Vault) (name : jsstring) :
  has_document vault name = true <->
  exists file,
    find (fun f => str_eqb (basename f) name) (getMarkdownFiles vault) = Some file.
Proof.
  unfold has_document. induction (getMarkdownFiles vault) as [|f fs IH]; simpl.
  - split; [discriminate | intros [file H]; discriminate].
  - destruct (str_eqb (basename f) name); simpl; [|exact IH].
    split; [eauto | reflexivity].
Qed.

Lemma find_no_document (vault : Vault) (name : jsstring) :
  has_document vault name = false <->
  find (fun f => str_eqb (basename f) name) (getMarkdownFiles vault) = None.
Proof.
  destruct (has_document vault name) eqn:E.
  - apply find_has_document in E as [file E]. rewrite E. split; discriminate.
  - split; [intros _|reflexivity].
    destruct (find _ _) as [file|] eqn:F; [|reflexivity].
    assert (H : has_document vault name = true)
      by (apply find_has_document; eauto).
    congruence.
Qed.

(** The loop only ever appends to the blocks collected so far. *)
Lemma explicit_loop_acc (vault : Vault) (mdFiles : list TFile)
      (names : list jsstring) (results : list RawGalleryData) :
  explicit_loop vault mdFiles names results =
  (blocks <- explicit_loop vault mdFiles names [] ;; Resolved (results ++ blocks)).
Proof.
  revert results; induction names as [|name names IH]; intros results; simpl.
  - rewrite app_nil_r; reflexivity.
  - destruct (find _ mdFiles) as [file|]; [|apply IH].
    destruct (cachedRead vault file) as [text|reason]; simpl; [|reflexivity].
    rewrite IH. rewrite (IH (push [] _)). unfold push.
    destruct (explicit_loop vault mdFiles names []); simpl; [|reflexivity].
    rewrite <- app_assoc. reflexivity.
Qed.

Lemma explicit_loop_skip (vault : Vault) (mdFiles : list TFile)
      (before after : list jsstring) (name : jsstring) (results : list RawGalleryData) :
  find (fun f => str_eqb (basename f) name) mdFiles = None ->
  explicit_loop vault mdFiles (before ++ name :: after) results =
  explicit_loop vault mdFiles (before ++ after) results.
Proof.
  intros Hnone. revert results; induction before as [|b before IH]; intros results; simpl.
  - rewrite Hnone; reflexivity.
  - destruct (find (fun f => str_eqb (basename f) b) mdFiles) as [file|];
      [|apply IH].
    destruct (cachedRead vault file); simpl; [apply IH | reflexivity].
Qed.

Lemma explicit_loop_resolves (vault : Vault) (names : list jsstring) :
  (forall name file,
      In name names ->
      find (fun f => str_eqb (basename f) name) (getMarkdownFiles vault) = Some file ->
      exists text, cachedRead vault file = Resolved text) ->
  exists blocks,
    explicit_loop vault (getMarkdownFiles vault) names [] = Resolved blocks.
Proof.
  induction names as [|name names IH]; intros Hread; simpl; [eauto|].
  destruct IH as [blocks Hb].
  { intros n f Hn. apply Hread; right; exact Hn. }
  destruct (find _ (getMarkdownFiles vault)) as [file|] eqn:F; [|eauto].
  destruct (Hread name file (or_introl eq_refl) F) as [text ->]. simpl.
  rewrite explicit_loop_acc, Hb. simpl. eauto.
Qed.

Lemma explicit_loop_blocks (vault : Vault) (names : list jsstring)
      (blocks : list RawGalleryData) :
  explicit_loop vault (getMarkdownFiles vault) names [] = Resolved blocks ->
  map galleryName blocks = filter (has_document vault) names /\
  Forall (fun block =>
            exists file text,
              In file (getMarkdownFiles vault) /\
              galleryName block = basename file /\
              cachedRead vault file = Resolved text /\
              content block = split newline text) blocks.
Proof.
  revert blocks; induction names as [|name names IH]; intros blocks; simpl.
  - intros [= <-]. split; [reflexivity | constructor].
  - destruct (find _ (getMarkdownFiles vault)) as [file|] eqn:F.
    + assert (Hd : has_document vault name = true)
        by (apply find_has_document; eauto).
      rewrite Hd. apply find_some in F as [Hin Hname].
      apply str_eqb_eq in Hname.
      destruct (cachedRead vault file) as [text|reason] eqn:R; simpl; [|discriminate].
      rewrite explicit_loop_acc.
      destruct (explicit_loop vault (getMarkdownFiles vault) names []) as [rest|]
        eqn:L; simpl; [|discriminate].
      intros [= <-]. destruct (IH rest eq_refl) as [Hn Hf].
      split.
      * simpl. rewrite Hn, Hname. reflexivity.
      * constructor; [|exact Hf]. exists file, text. simpl. auto.
    + apply find_no_document in F. rewrite F. apply IH.
Qed.

(** C10. Under the explicit policy a requested name without a document of
    exactly that base name is passed over: the outcome is the one for the
    list without that name, and no rejection comes from it.  When the reads
    of the documents found succeed, the call resolves; the blocks it
    resolves to are, in the order of the request, one per name that has a
    document (so no more than there are names), each named by the base name
    of the document found and holding that document's lines. *)
Theorem getGalleryContent_explicit (vault : Vault) (names : list jsstring) :
  (forall before after name,
      names = before ++ name :: after ->
      has_document vault name = false ->
      getGalleryContent vault Explicit names =
      getGalleryContent vault Explicit (before ++ after)) /\
  ((forall name file,
       In name names ->
       find (fun f => str_eqb (basename f) name) (getMarkdownFiles vault) = Some file ->
       exists text, cachedRead vault file = Resolved text) ->
   exists blocks, getGalleryContent vault Explicit names = Resolved blocks) /\
  (forall blocks,
      getGalleryContent vault Explicit names = Resolved blocks ->
      map galleryName blocks = filter (has_document vault) names /\
      List.length blocks <= List.length names /\
      Forall (fun block =>
                exists file text,
                  In file (getMarkdownFiles vault) /\
                  galleryName block = basename file /\
                  cachedRead vault file = Resolved text /\
                  content block = split newline text) blocks).
Proof.
  unfold getGalleryContent. split; [|split].
  - intros before after name -> Hno. apply explicit_loop_skip.
    apply find_no_document, Hno.
  - apply explicit_loop_resolves.
  - intros blocks H. destruct (explicit_loop_blocks vault names H) as [Hn Hf].
    split; [exact Hn|]. split; [|exact Hf].
    rewrite <- (length_map galleryName), Hn. apply filter_length_le.
Qed.

Lemma getGalleryContent_explicit_witness :
  getGalleryContent two_notes Explicit [str "A"; str "a"; str "B"] =
    getGalleryContent two_notes Explicit [str "A"; str "B"] /\
  map galleryName
      [ mkRaw [str "![[img1.png]]"] (str "A");
        mkRaw [str "<![[img1.png]]<red,large>>"] (str "B") ] =
    [str "A"; str "B"].
Proof.
  split.
  - exact (proj1 (getGalleryContent_explicit two_notes [str "A"; str "a"; str "B"])
             [str "A"] [str "B"] (str "a") eq_refl eq_refl).
  - exact (proj1 (proj2 (proj2
             (getGalleryContent_explicit two_notes [str "A"; str "a"; str "B"])) _
             eq_refl)).
Defined.

(** ** The scenarios of the specification, run on the model *)

Example explicit_scenario :
  extract two_notes Explicit [str "A"; str "B"] =
  Resolved
    [ (str "img1.png",
       mkEntry (str "img1.png") [str "A"; str "B"] [str "red"; str "large"]) ].
Proof. reflexivity. Qed.

Example lookup_miss_scenario :
  getGalleryContent two_notes Explicit [str "A"; str "a"; str "B"] =
  Resolved [ mkRaw [str "![[img1.png]]"] (str "A");
             mkRaw [str "<![[img1.png]]<red,large>>"] (str "B") ].
Proof. reflexivity. Qed.

Example virtual_scenario :
  getGalleryContent two_notes Virtual [str "<!"] =
  Resolved [ mkRaw [str "<![[img1.png]]<red,large>>"] (str "B") ].
Proof. reflexivity. Qed.

Example evaluate_scenarios :
  evaluateField ascii_toLowerCase (Many [str "Cat"; str "Dog"]) [str "cat"] Or = true /\
  evaluateField ascii_toLowerCase (Many [str "Cat"; str "Dog"])
                [str "cat"; str "fish"] And = false /\
  evaluateField ascii_toLowerCase (Many [str "Cat"; str "Dog"]) [str "fish"] Not = true.
Proof. repeat split; reflexivity. Qed.

Example no_shape_scenario :
  parseGalleryLine (str "plain text with [[a link]]") (str "A") = None.
Proof. reflexivity. Qed.


(** * Further properties of the code *)

(** ** First-seen order *)

Lemma str_eqb_comm (a b : jsstring) : str_eqb a b = str_eqb b a.
Proof.
  destruct (str_eqb b a) eqn:E.
  - apply str_eqb_eq in E; subst; apply str_eqb_refl.
  - apply str_eqb_neq. apply str_eqb_neq in E. congruence.
Qed.

Lemma set_add_In (s : list jsstring) (x y : jsstring) :
  In y (set_add s x) <-> y = x \/ In y s.
Proof.
  unfold set_add. destruct (array_includes s x) eqn:E.
  - apply array_includes_In in E. split; [auto | intros [->|H]; assumption].
  - unfold push. rewrite in_app_iff. simpl. intuition congruence.
Qed.

Lemma In_first_seen (l : list jsstring) (x : jsstring) :
  In x (first_seen l) <-> In x l.
Proof.
  induction l as [|a l IH]; simpl; [tauto|].
  rewrite filter_In, IH, negb_true_iff, str_eqb_neq.
  destruct (str_eqb a x) eqn:E.
  - apply str_eqb_eq in E. tauto.
  - apply str_eqb_neq in E. intuition congruence.
Qed.

Lemma NoDup_first_seen (l : list jsstring) : NoDup (first_seen l).
Proof.
  induction l as [|a l IH]; simpl; constructor.
  - rewrite filter_In, negb_true_iff, str_eqb_neq. tauto.
  - apply NoDup_filter, IH.
Qed.

Lemma array_includes_filter (s : list jsstring) (a x : jsstring) :
  x <> a ->
  array_includes (filter (fun y => negb (str_eqb y a)) s) x = array_includes s x.
Proof.
  intros Hne. destruct (array_includes s x) eqn:E.
  - apply array_includes_In. apply array_includes_In in E.
    apply filter_In. split; [exact E|]. apply negb_true_iff, str_eqb_neq, Hne.
  - apply array_includes_not_In. apply array_includes_not_In in E.
    rewrite filter_In. tauto.
Qed.

Lemma first_seen_snoc (l : list jsstring) (x : jsstring) :
  first_seen (l ++ [x]) = set_add (first_seen l) x.
Proof.
  induction l as [|a l IH]; simpl; [reflexivity|].
  rewrite IH. unfold set_add, push. unfold array_includes at 2. simpl existsb.
  fold (array_includes (filter (fun y => negb (str_eqb y a)) (first_seen l)) x).
  destruct (str_eqb x a) eqn:E; simpl.
  - apply str_eqb_eq in E; subst x. f_equal.
    destruct (array_includes (first_seen l) a); [reflexivity|].
    rewrite filter_app. simpl. rewrite str_eqb_refl. simpl. apply app_nil_r.
  - apply str_eqb_neq in E. rewrite (array_includes_filter _ E).
    destruct (array_includes (first_seen l) x); [reflexivity|].
    rewrite filter_app. simpl.
    rewrite (proj2 (str_eqb_neq x a) E). reflexivity.
Qed.

Lemma first_seen_app (a b : list jsstring) :
  first_seen (a ++ b) = fold_left set_add b (first_seen a).
Proof.
  revert a; induction b as [|x b IH]; intros a; simpl.
  - rewrite app_nil_r; reflexivity.
  - rewrite <- first_seen_snoc, <- IH, <- app_assoc. reflexivity.
Qed.

(** ** What the index holds *)

Lemma add_gallery_set_add (e : GalleryEntry) (g : jsstring) :
  add_gallery e g = mkEntry (filename e) (set_add (galleries e) g) (properties e).
Proof.
  unfold add_gallery, set_add.
  destruct (array_includes (galleries e) g); [destruct e|]; reflexivity.
Qed.

Lemma add_properties_set_add (ps : list jsstring) (e : GalleryEntry) :
  fold_left add_property ps e =
  mkEntry (filename e) (galleries e) (fold_left set_add ps (properties e)).
Proof.
  revert e; induction ps as [|p ps IH]; intros e; simpl; [destruct e; reflexivity|].
  rewrite IH. unfold add_property, set_add.
  destruct (array_includes (properties e) p); reflexivity.
Qed.

Lemma map_set_keys (V : Type) (m : JsMap V) (k : jsstring) (v : V) :
  map fst (map_set m k v) = set_add (map fst m) k.
Proof.
  unfold set_add, push. induction m as [|[k' v'] m IH]; simpl; [reflexivity|].
  unfold array_includes in *. simpl. rewrite (str_eqb_comm k k').
  destruct (str_eqb k' k); simpl; [reflexivity|].
  rewrite IH. destruct (existsb (str_eqb k) (map fst m)); reflexivity.
Qed.

Lemma merge_entry_keys (m : JsMap GalleryEntry) (r : oneGalleryEntry) :
  map fst (merge_entry m r) = set_add (map fst m) (one_filename r).
Proof. apply map_set_keys. Qed.

Lemma merge_all_snoc (l : list oneGalleryEntry) (r : oneGalleryEntry)
      (m : JsMap GalleryEntry) :
  merge_all (l ++ [r]) m = merge_entry (merge_all l m) r.
Proof. unfold merge_all. rewrite fold_left_app. reflexivity. Qed.

Lemma merge_all_keys (l : list oneGalleryEntry) :
  map fst (merge_all l []) = first_seen (map one_filename l).
Proof.
  induction l as [|r l IH] using rev_ind; [reflexivity|].
  rewrite merge_all_snoc, merge_entry_keys, IH, map_app. simpl.
  symmetry. apply first_seen_snoc.
Qed.

Lemma records_of_snoc (k : jsstring) (l : list oneGalleryEntry) (r : oneGalleryEntry) :
  records_of k (l ++ [r]) =
  records_of k l ++ (if str_eqb (one_filename r) k then [r] else []).
Proof. unfold records_of. rewrite filter_app. reflexivity. Qed.

Lemma merge_all_get (l : list oneGalleryEntry) (k : jsstring) :
  map_get (merge_all l []) k = entry_for k l.
Proof.
  induction l as [|r l IH] using rev_ind; [reflexivity|].
  rewrite merge_all_snoc. unfold merge_entry.
  destruct (str_eqb (one_filename r) k) eqn:E.
  - apply str_eqb_eq in E. rewrite E, map_get_set_same, IH.
    rewrite add_properties_set_add, add_gallery_set_add. simpl.
    unfold entry_for. rewrite records_of_snoc, E, str_eqb_refl.
    assert (Hex :
      match (match records_of k l with
             | [] => None
             | _ :: _ =>
                 Some (mkEntry k (first_seen (map one_gallery (records_of k l)))
                               (first_seen (flat_map one_properties (records_of k l))))
             end) with
      | Some e => e
      | None => mkEntry k [] []
      end = mkEntry k (first_seen (map one_gallery (records_of k l)))
                    (first_seen (flat_map one_properties (records_of k l)))).
    { destruct (records_of k l); reflexivity. }
    rewrite Hex.
    destruct (records_of k l ++ [r]) eqn:F;
      [destruct (records_of k l); discriminate F|].
    rewrite <- F. clear F.
    rewrite map_app, flat_map_app. simpl map. simpl flat_map.
    rewrite app_nil_r, first_seen_snoc, first_seen_app. reflexivity.
  - assert (Hne : one_filename r <> k) by (apply str_eqb_neq; exact E).
    rewrite (map_get_set_other _ _ Hne), IH.
    unfold entry_for. rewrite records_of_snoc, E, app_nil_r. reflexivity.
Qed.

Lemma parse_lines_In (rawData : list RawGalleryData) (r : oneGalleryEntry) :
  In r (parse_lines rawData) <-> parsed_from rawData r.
Proof.
  rewrite parse_lines_blocks, in_flat_map. unfold parsed_from, parse_block. split.
  - intros [b [Hb Hr]]. apply in_flat_map in Hr as [line [Hl Hr]].
    exists b, line. split; [exact Hb|]. split; [exact Hl|].
    destruct (parseGalleryLine line (galleryName b)); simpl in Hr;
      [destruct Hr as [->|[]]; reflexivity | destruct Hr].
  - intros [b [line [Hb [Hl Hp]]]]. exists b. split; [exact Hb|].
    apply in_flat_map. exists line. split; [exact Hl|]. rewrite Hp. left; reflexivity.
Qed.

Lemma records_of_In (k : jsstring) (l : list oneGalleryEntry) (r : oneGalleryEntry) :
  In r (records_of k l) <-> In r l /\ one_filename r = k.
Proof. unfold records_of. rewrite filter_In, str_eqb_eq. reflexivity. Qed.

(** X1. The items of the index are the references of the parsed lines,
    each once, in the order in which they are first seen. *)
Theorem extract_from_keys (rawData : list RawGalleryData) :
  map fst (extract_from rawData) =
    first_seen (map one_filename (parse_lines rawData)) /\
  NoDup (map fst (extract_from rawData)).
Proof.
  unfold extract_from. rewrite merge_all_keys.
  split; [reflexivity | apply NoDup_first_seen].
Qed.

(** X2. Looking an item up in the index gives the entry made of the lines
    that refer to it: it carries the item as its file name, the source
    names of those lines and their properties, each once and in first-seen
    order; an item no line refers to is not in the index. *)
Theorem extract_from_lookup (rawData : list RawGalleryData) (k : jsstring) :
  map_get (extract_from rawData) k = entry_for k (parse_lines rawData).
Proof. apply merge_all_get. Qed.

Lemma index_membership (rawData : list RawGalleryData) (k : jsstring) :
  (In k (map fst (extract_from rawData)) <->
   exists r, parsed_from rawData r /\ one_filename r = k) /\
  (forall e,
      map_get (extract_from rawData) k = Some e ->
      filename e = k /\
      (forall g, In g (galleries e) <->
                 exists r, parsed_from rawData r /\ one_filename r = k /\
                           one_gallery r = g) /\
      (forall p, In p (properties e) <->
                 exists r, parsed_from rawData r /\ one_filename r = k /\
                           In p (one_properties r))).
Proof.
  split.
  - unfold extract_from. rewrite merge_all_keys, In_first_seen, in_map_iff.
    split; intros [r [H1 H2]]; exists r.
    + split; [apply parse_lines_In; exact H2 | exact H1].
    + split; [exact H2 | apply parse_lines_In; exact H1].
  - intros e. unfold extract_from at 1. rewrite merge_all_get. unfold entry_for.
    destruct (records_of k (parse_lines rawData)) eqn:F; [discriminate|].
    rewrite <- F. clear F. intros [= <-]. simpl.
    split; [reflexivity|]. split.
    + intros g. rewrite In_first_seen, in_map_iff. split.
      * intros [r [Hg Hr]]. apply records_of_In in Hr as [Hr Hk].
        exists r. rewrite <- parse_lines_In. auto.
      * intros [r [Hr [Hk Hg]]]. exists r. split; [exact Hg|].
        apply records_of_In. rewrite parse_lines_In. auto.
    + intros p. rewrite In_first_seen, in_flat_map. split.
      * intros [r [Hr Hp]]. apply records_of_In in Hr as [Hr Hk].
        exists r. rewrite <- parse_lines_In. auto.
      * intros [r [Hr [Hk Hp]]]. exists r. split; [|exact Hp].
        apply records_of_In. rewrite parse_lines_In. auto.
Qed.

(** X3. In terms of the blocks: an item is in the index exactly when some
    line of some block parses to it; its entry lists a source exactly when
    a line of the block of that name refers to the item, and a property
    exactly when a line referring to the item carries it. *)
Theorem extract_from_membership (rawData : list RawGalleryData) (k : jsstring) :
  (In k (map fst (extract_from rawData)) <->
   exists r, parsed_from rawData r /\ one_filename r = k) /\
  (forall e,
      map_get (extract_from rawData) k = Some e ->
      filename e = k /\
      (forall g, In g (galleries e) <->
                 exists r, parsed_from rawData r /\ one_filename r = k /\
                           one_gallery r = g) /\
      (forall p, In p (properties e) <->
                 exists r, parsed_from rawData r /\ one_filename r = k /\
                           In p (one_properties r))).
Proof. exact (index_membership rawData k). Qed.

Lemma extract_from_membership_witness :
  let rawData :=
    [ mkRaw [str "![[img1.png]]"] (str "A");
      mkRaw [str "text"; str "<![[img1.png]]<red,large>>"] (str "B") ] in
  let e := mkEntry (str "img1.png") [str "A"; str "B"] [str "red"; str "large"] in
  filename e = str "img1.png" /\
  (forall g, In g (galleries e) <->
             exists r, parsed_from rawData r /\ one_filename r = str "img1.png" /\
                       one_gallery r = g) /\
  (forall p, In p (properties e) <->
             exists r, parsed_from rawData r /\ one_filename r = str "img1.png" /\
                       In p (one_properties r)).
Proof.
  intros rawData e.
  exact (proj2 (extract_from_membership rawData (str "img1.png")) e eq_refl).
Defined.

(** ** The order of the blocks *)

Lemma parsed_from_perm (rawData rawData' : list RawGalleryData) (r : oneGalleryEntry) :
  Permutation rawData rawData' -> parsed_from rawData r -> parsed_from rawData' r.
Proof.
  intros HP [b [line [Hb H]]]. exists b, line.
  split; [exact (Permutation_in _ HP Hb) | exact H].
Qed.

(** X4. Feeding the blocks in another order changes neither which items
    the index has nor, for any item, which sources and which properties its
    entry lists; only the orders can differ. *)
Theorem extract_from_block_order (rawData rawData' : list RawGalleryData)
        (k : jsstring) :
  Permutation rawData rawData' ->
  (In k (map fst (extract_from rawData)) <->
   In k (map fst (extract_from rawData'))) /\
  (forall e e',
      map_get (extract_from rawData) k = Some e ->
      map_get (extract_from rawData') k = Some e' ->
      same_members (galleries e) (galleries e') /\
      same_members (properties e) (properties e')).
Proof.
  intros HP. assert (HP' := Permutation_sym HP).
  destruct (index_membership rawData k) as [K1 E1].
  destruct (index_membership rawData' k) as [K2 E2].
  split.
  - rewrite K1, K2.
    split; intros [r [Hr Hk]]; exists r; split; eauto using parsed_from_perm.
  - intros e e' He He'.
    destruct (E1 e He) as [_ [G1 P1]]. destruct (E2 e' He') as [_ [G2 P2]].
    split; intros x.
    + rewrite G1, G2.
      split; intros [r [Hr Hk]]; exists r; split; eauto using parsed_from_perm.
    + rewrite P1, P2.
      split; intros [r [Hr Hk]]; exists r; split; eauto using parsed_from_perm.
Qed.

Lemma extract_from_block_order_witness :
  let a := mkRaw [str "![[x.png]]"] (str "A") in
  let b := mkRaw [str "<![[x.png]]<red>>"; str "![[y.png]]"] (str "B") in
  In (str "y.png") (map fst (extract_from [a; b])) <->
  In (str "y.png") (map fst (extract_from [b; a])).
Proof.
  intros a b.
  exact (proj1 (@extract_from_block_order [a; b] [b; a] (str "y.png")
                  (perm_swap b a []))).
Defined.

(** ** More on the line parser *)

Section LazyMinimal.

Variable A : Type.
Variable k : jsstring -> jsstring -> option A.

(** The capture of a lazy group is the first one its continuation
    accepts: it refused every shorter one. *)
Lemma lazy_dot_minimal (cap s : jsstring) (r : A) :
  lazy_dot k cap s = Some r ->
  exists g rest,
    s = g ++ rest /\ no_line_terminator g /\ k (cap ++ g) rest = Some r /\
    forall g1 c g2, g = g1 ++ c :: g2 -> k (cap ++ g1) (c :: g2 ++ rest) = None.
Proof.
  revert cap; induction s as [|c s IH]; intros cap; simpl.
  - destruct (k cap []) eqn:E; [|discriminate].
    intros [= <-]. exists [], []. split; [reflexivity|]. split; [reflexivity|].
    split; [rewrite app_nil_r; exact E|]. intros [|? ?] ? ? F; discriminate F.
  - destruct (k cap (c :: s)) eqn:E.
    + intros [= <-]. exists [], (c :: s). split; [reflexivity|].
      split; [reflexivity|]. split; [rewrite app_nil_r; exact E|].
      intros [|? ?] ? ? F; discriminate F.
    + destruct (is_line_terminator c) eqn:Ec; [discriminate|].
      intros H. apply IH in H as [g [rest [-> [Hg [Hk Hmin]]]]].
      exists (c :: g), rest. rewrite <- app_assoc in Hk.
      split; [reflexivity|]. split.
      { unfold no_line_terminator; simpl. rewrite Ec. exact Hg. }
      split; [exact Hk|].
      intros [|d g1] x g2 F; simpl in F; injection F as -> ->.
      * rewrite app_nil_r. exact E.
      * specialize (Hmin g1 x g2 eq_refl). rewrite <- app_assoc in Hmin.
        exact Hmin.
Qed.

End LazyMinimal.

Lemma no_line_terminator_app (a b : jsstring) :
  no_line_terminator (a ++ b) <-> no_line_terminator a /\ no_line_terminator b.
Proof. unfold no_line_terminator. rewrite forallb_app, andb_true_iff. reflexivity. Qed.

Lemma includes_false (s t : jsstring) :
  (forall pre post, s <> pre ++ t ++ post) -> includes s t = false.
Proof.
  intros H. destruct (includes s t) eqn:E; [|reflexivity].
  apply includes_spec in E as [pre [post E]]. destruct (H pre post E).
Qed.

Lemma bare_at_minimal (s : jsstring) (m : RegExpMatch) :
  bare_at s = Some m -> includes (group1 m) (str "]]") = false.
Proof.
  unfold bare_at. destruct (lit (str "![[") s) as [s1|]; [|discriminate].
  intros H. apply lazy_dot_minimal in H as [g [rest [-> [Hg [Hk Hmin]]]]].
  unfold bare_tail in Hk. simpl app in Hk.
  destruct (lit (str "]]") rest) as [s2|] eqn:E2; [|discriminate].
  injection Hk as <-. simpl group1.
  apply includes_false. intros pre post F.
  specialize (Hmin pre 93%N (93%N :: post)).
  rewrite F in Hmin. specialize (Hmin eq_refl).
  unfold bare_tail in Hmin. discriminate Hmin.
Qed.

Lemma annotated_tail_complete (g1 g2 post : jsstring) :
  no_line_terminator g2 ->
  exists r, annotated_tail g1 (str "]]<" ++ g2 ++ str ">>" ++ post) = Some r.
Proof.
  intros Hg. unfold annotated_tail. rewrite lit_app.
  apply lazy_dot_complete with (r := mkMatch g1 (Some g2)); [exact Hg|].
  cbv beta. rewrite lit_app. reflexivity.
Qed.

Lemma annotated_at_minimal (s : jsstring) (m : RegExpMatch) :
  annotated_at s = Some m ->
  includes (group1 m) (str "]]<") = false /\
  exists g2, group2 m = Some g2 /\ includes g2 (str ">>") = false.
Proof.
  unfold annotated_at. destruct (lit (str "<![[") s) as [s1|]; [|discriminate].
  intros H. apply lazy_dot_minimal in H as [g1 [r1 [-> [Hg1 [Hk Hmin1]]]]].
  unfold annotated_tail in Hk. simpl app in Hk.
  destruct (lit (str "]]<") r1) as [s2|] eqn:E2; [|discriminate].
  apply lit_spec in E2. subst r1.
  apply lazy_dot_minimal in Hk as [g2 [r2 [-> [Hg2 [Hk Hmin2]]]]].
  destruct (lit (str ">>") r2) as [s3|] eqn:E3; [|discriminate].
  apply lit_spec in E3. subst r2. injection Hk as <-. simpl.
  split.
  - apply includes_false. intros pre post F.
    specialize (Hmin1 pre 93%N ([93%N; 60%N] ++ post)).
    rewrite F in Hmin1. specialize (Hmin1 eq_refl).
    rewrite F in Hg1.
    apply no_line_terminator_app in Hg1 as [_ Hg1].
    apply no_line_terminator_app in Hg1 as [_ Hpost].
    destruct (@annotated_tail_complete pre (post ++ str "]]<" ++ g2) s3) as [r Hr].
    { apply no_line_terminator_app. split; [exact Hpost|].
      apply no_line_terminator_app. split; [reflexivity | exact Hg2]. }
    assert (E : 93%N :: ([93%N; 60%N] ++ post) ++ str "]]<" ++ g2 ++ str ">>" ++ s3 =
                str "]]<" ++ (post ++ str "]]<" ++ g2) ++ str ">>" ++ s3).
    { change (str "]]<") with [93%N; 93%N; 60%N]. simpl.
      rewrite <- !app_assoc. reflexivity. }
    rewrite E in Hmin1. simpl app at 1 in Hmin1. congruence.
  - exists g2. split; [reflexivity|].
    apply includes_false. intros pre post F.
    specialize (Hmin2 pre 62%N (62%N :: post)).
    rewrite F in Hmin2. specialize (Hmin2 eq_refl).
    discriminate Hmin2.
Qed.

Lemma includes_trans (s t u : jsstring) :
  includes s t = true -> includes t u = true -> includes s u = true.
Proof.
  rewrite !includes_spec. intros [a [b ->]] [c [d ->]].
  exists (a ++ c), (d ++ b). rewrite <- !app_assoc. reflexivity.
Qed.

Lemma includes_false_sub (s t u : jsstring) :
  includes s t = true -> includes s u = false -> includes t u = false.
Proof.
  intros Hst Hsu. destruct (includes t u) eqn:E; [|reflexivity].
  rewrite (@includes_trans s t u Hst E) in Hsu. discriminate.
Qed.

Lemma includes_In (s t : jsstring) (c : N) :
  includes s t = true -> In c t -> In c s.
Proof.
  rewrite includes_spec. intros [a [b ->]] H.
  apply in_or_app; right. apply in_or_app; left. exact H.
Qed.

Lemma includes_no_line_terminator (s t : jsstring) :
  includes s t = true -> no_line_terminator s -> no_line_terminator t.
Proof.
  rewrite includes_spec. intros [a [b ->]] H.
  apply no_line_terminator_app in H as [_ H].
  apply no_line_terminator_app in H as [H _]. exact H.
Qed.

Lemma join_includes (sep : N) (toks : list jsstring) (t : jsstring) :
  In t toks -> includes (join sep toks) t = true.
Proof.
  induction toks as [|t0 toks IH]; intros H; [destruct H|].
  destruct toks as [|t1 toks].
  - destruct H as [->|[]]. apply includes_spec. exists [], [].
    rewrite app_nil_r. reflexivity.
  - change (join sep (t0 :: t1 :: toks)) with (t0 ++ sep :: join sep (t1 :: toks)).
    apply includes_spec. destruct H as [->|H].
    + exists [], (sep :: join sep (t1 :: toks)). reflexivity.
    + apply IH, includes_spec in H as [a [b E]]. rewrite E.
      exists (t0 ++ sep :: a), b. rewrite <- app_assoc. reflexivity.
Qed.

Lemma split_includes (sep : N) (s t : jsstring) :
  In t (split sep s) -> includes s t = true.
Proof.
  intros H. rewrite <- (proj1 (join_split sep s)) at 1.
  apply join_includes, H.
Qed.

Lemma trim_includes (t : jsstring) : includes t (trim t) = true.
Proof.
  destruct (trim_spec t) as [l [r [E _]]].
  apply includes_spec. exists l, r. exact E.
Qed.

Lemma trimmed_token_clean (g2 t : jsstring) :
  no_line_terminator g2 -> In t (split comma g2) ->
  clean_property (trim t) /\ includes g2 (trim t) = true.
Proof.
  intros Hg Ht.
  assert (Hsub : includes g2 (trim t) = true)
    by exact (@includes_trans g2 t (trim t) (@split_includes comma g2 t Ht)
                (trim_includes t)).
  split; [|exact Hsub].
  destruct (join_split comma g2) as [_ Hf]. rewrite Forall_forall in Hf.
  destruct (trim_spec t) as [l [r [_ [_ [_ [Hh Hl]]]]]].
  split; [|split; [|split]].
  - intros F. exact (Hf t Ht (@includes_In t (trim t) comma (trim_includes t) F)).
  - exact (@includes_no_line_terminator g2 (trim t) Hsub Hg).
  - exact Hh.
  - exact Hl.
Qed.

(** X5. A line yields no record exactly when it nowhere holds [![[],
    then any text free of line terminators, then []]]. *)
Theorem parseGalleryLine_miss (line gallery : jsstring) :
  parseGalleryLine line gallery = None <-> forall g1, ~ bare_shape line g1.
Proof.
  unfold parseGalleryLine. split.
  - intros H g1 Hs. destruct (match_bare_complete Hs) as [b Hb].
    destruct (match_annotated line); [discriminate|].
    rewrite Hb in H. discriminate.
  - intros H.
    destruct (match_annotated line) as [m|] eqn:Ha.
    + destruct (match_annotated_sound line Ha) as [g2 [_ Hs]].
      destruct (H _ (annotated_shape_bare Hs)).
    + destruct (match_bare line) as [m|] eqn:Hb; [|reflexivity].
      destruct (match_bare_sound line Hb) as [_ Hs]. destruct (H _ Hs).
Qed.

Lemma parseGalleryLine_cases (line gallery : jsstring) (r : oneGalleryEntry) :
  parseGalleryLine line gallery = Some r ->
  (exists m g2 suf,
      match_annotated line = Some m /\
      annotated_at suf = Some m /\ group2 m = Some g2 /\
      annotated_shape line (group1 m) g2 /\
      r = mkOne (group1 m) gallery (map trim (split comma g2))) \/
  (exists m suf,
      match_annotated line = None /\ bare_at suf = Some m /\
      bare_shape line (group1 m) /\ r = mkOne (group1 m) gallery []).
Proof.
  unfold parseGalleryLine.
  destruct (match_annotated line) as [m|] eqn:Ha.
  - intros [= <-]. left.
    destruct (match_annotated_sound line Ha) as [g2 [Hg Hs]].
    destruct (search_sound _ _ Ha) as [pre [suf [_ Hat]]].
    exists m, g2, suf. rewrite Hg. auto.
  - destruct (match_bare line) as [m|] eqn:Hb; [|discriminate].
    intros [= <-]. right.
    destruct (match_bare_sound line Hb) as [Hg Hs].
    destruct (search_sound _ _ Hb) as [pre [suf [_ Hat]]].
    exists m, suf. rewrite Hg. auto.
Qed.

(** X6. The reference of a record is text of the line that stands between
    [![[] and []]]; it holds no line terminator and nowhere []]<]; when only
    the bare pattern matched, it holds no []]] at all.  The source name is
    the one passed in. *)
Theorem parseGalleryLine_reference (line gallery : jsstring) (r : oneGalleryEntry) :
  parseGalleryLine line gallery = Some r ->
  one_gallery r = gallery /\
  bare_shape line (one_filename r) /\
  includes (one_filename r) (str "]]<") = false /\
  (match_annotated line = None -> includes (one_filename r) (str "]]") = false).
Proof.
  intros H. destruct (parseGalleryLine_cases line gallery H)
    as [[m [g2 [suf [Ha [Hat [Hg [Hs ->]]]]]]] | [m [suf [Ha [Hat [Hs ->]]]]]]; simpl.
  - split; [reflexivity|]. split; [exact (annotated_shape_bare Hs)|].
    split; [exact (proj1 (annotated_at_minimal suf Hat))|].
    intros Hn. congruence.
  - split; [reflexivity|]. split; [exact Hs|].
    assert (Hb := bare_at_minimal suf Hat).
    split; [|intros _; exact Hb].
    destruct (includes (group1 m) (str "]]<")) eqn:E; [|reflexivity].
    rewrite (@includes_trans (group1 m) (str "]]<") (str "]]") E eq_refl) in Hb.
    discriminate Hb.
Qed.

Lemma parseGalleryLine_reference_witness :
  bare_shape (str "a ![[x]]y]] b") (str "x") /\
  includes (str "x") (str "]]<") = false.
Proof.
  destruct (@parseGalleryLine_reference (str "a ![[x]]y]] b") (str "G")
              (mkOne (str "x") (str "G") []) eq_refl) as [_ [H1 [H2 _]]].
  exact (conj H1 H2).
Defined.

(** X7. Every property of a record is free of commas and of line
    terminators, has no white space at either end, and holds no [>>]. *)
Theorem parseGalleryLine_clean_properties (line gallery : jsstring)
        (r : oneGalleryEntry) :
  parseGalleryLine line gallery = Some r ->
  Forall (fun p => clean_property p /\ includes p (str ">>") = false)
         (one_properties r).
Proof.
  intros H. destruct (parseGalleryLine_cases line gallery H)
    as [[m [g2 [suf [Ha [Hat [Hg [Hs ->]]]]]]] | [m [suf [Ha [Hat [Hs ->]]]]]]; simpl;
    [|constructor].
  apply Forall_forall. intros p Hp. apply in_map_iff in Hp as [t [<- Ht]].
  destruct Hs as [pre [post [_ [_ Hg2]]]].
  destruct (@trimmed_token_clean g2 t Hg2 Ht) as [Hc Hsub].
  split; [exact Hc|].
  destruct (annotated_at_minimal suf Hat) as [_ [g2' [Hg' Hno]]].
  rewrite Hg in Hg'. injection Hg' as <-.
  exact (@includes_false_sub g2 (trim t) (str ">>") Hsub Hno).
Qed.

Lemma parseGalleryLine_clean_properties_witness :
  Forall (fun p => clean_property p /\ includes p (str ">>") = false)
         [str "red"; str ""; str "big one"].
Proof.
  exact (@parseGalleryLine_clean_properties
           (str "<![[x]]< red ,, big one>>") (str "G")
           (mkOne (str "x") (str "G") [str "red"; str ""; str "big one"]) eq_refl).
Defined.

(** ** More on the field evaluator *)

Lemma forallb_negb (A : Type) (f : A -> bool) (l : list A) :
  forallb (fun x => negb (f x)) l = negb (existsb f l).
Proof.
  induction l as [|x l IH]; simpl; [reflexivity|].
  rewrite IH, negb_orb. reflexivity.
Qed.

Lemma forallb_existsb_nonempty (A : Type) (f : A -> bool) (l : list A) :
  l <> [] -> forallb f l = true -> existsb f l = true.
Proof.
  destruct l as [|x l]; [congruence|]. simpl. intros _ H.
  apply andb_true_iff in H as [-> _]. reflexivity.
Qed.

Lemma forallb_pointwise (A : Type) (f g : A -> bool) (l : list A) :
  (forall x, f x = g x) -> forallb f l = forallb g l.
Proof.
  intros H. induction l as [|x l IH]; simpl; [reflexivity|].
  rewrite H, IH. reflexivity.
Qed.

Section EvaluatorAlgebra.

Variable toLowerCase : jsstring -> jsstring.

Lemma evaluateField_values (value : FieldValue) (terms : list jsstring)
      (mode : LogicMode) :
  evaluateField toLowerCase value terms mode =
  evaluateField toLowerCase (Many (value_list value)) terms mode.
Proof. destruct value, mode; reflexivity. Qed.

Lemma not_is_negb_or (value : FieldValue) (terms : list jsstring) :
  evaluateField toLowerCase value terms Not =
  negb (evaluateField toLowerCase value terms Or).
Proof.
  destruct terms as [|t terms]; [destruct value; reflexivity|].
  rewrite !(@evaluateField_nonempty toLowerCase value (t :: terms)) by discriminate.
  cbv zeta. rewrite <- forallb_negb. apply forallb_pointwise.
  intros term. apply forallb_negb.
Qed.

(** X8. Mode [not] is the negation of mode [or], for every value and every
    term list, the empty one included. *)
Theorem evaluateField_not_or (value : FieldValue) (terms : list jsstring) :
  evaluateField toLowerCase value terms Not =
  negb (evaluateField toLowerCase value terms Or).
Proof. exact (not_is_negb_or value terms). Qed.

(** X9. Whatever matches in mode [and] matches in mode [or]. *)
Theorem evaluateField_and_or (value : FieldValue) (terms : list jsstring) :
  evaluateField toLowerCase value terms And = true ->
  evaluateField toLowerCase value terms Or = true.
Proof.
  destruct terms as [|t terms]; [destruct value; discriminate|].
  rewrite !(@evaluateField_nonempty toLowerCase value (t :: terms)) by discriminate.
  cbv zeta. apply forallb_existsb_nonempty. discriminate.
Qed.

(** X10. A field without any value (an entry without properties, say) is
    never matched in the modes [or] and [and] and always in mode [not]. *)
Theorem evaluateField_no_values (terms : list jsstring) :
  evaluateField toLowerCase (Many []) terms Or = false /\
  evaluateField toLowerCase (Many []) terms And = false /\
  evaluateField toLowerCase (Many []) terms Not = true.
Proof.
  destruct terms as [|t terms]; [repeat split; reflexivity|].
  assert (HO : evaluateField toLowerCase (Many []) (t :: terms) Or = false).
  { simpl. clear. induction (map toLowerCase terms); simpl; auto. }
  split; [exact HO|]. split; [reflexivity|].
  rewrite not_is_negb_or, HO. reflexivity.
Qed.

(** X11. The outcome depends on the terms and on the values only through
    their lower-case forms. *)
Theorem evaluateField_case_insensitive (value value' : FieldValue)
        (terms terms' : list jsstring) (mode : LogicMode) :
  map toLowerCase (value_list value) = map toLowerCase (value_list value') ->
  map toLowerCase terms = map toLowerCase terms' ->
  evaluateField toLowerCase value terms mode =
  evaluateField toLowerCase value' terms' mode.
Proof.
  intros Hv Ht.
  rewrite (evaluateField_values value), (evaluateField_values value').
  assert (Hl : List.length terms = List.length terms').
  { rewrite <- (length_map toLowerCase terms), Ht. apply length_map. }
  destruct mode; [reflexivity| | |]; simpl; rewrite Hv, Ht, Hl; reflexivity.
Qed.

(** X12. More values can only help the modes [or] and [and], and can only
    hurt the mode [not]. *)
Theorem evaluateField_more_values (value value' : FieldValue)
        (terms : list jsstring) :
  incl (value_list value) (value_list value') ->
  (evaluateField toLowerCase value terms Or = true ->
   evaluateField toLowerCase value' terms Or = true) /\
  (evaluateField toLowerCase value terms And = true ->
   evaluateField toLowerCase value' terms And = true) /\
  (evaluateField toLowerCase value' terms Not = true ->
   evaluateField toLowerCase value terms Not = true).
Proof.
  intros Hi.
  assert (HO : evaluateField toLowerCase value terms Or = true ->
               evaluateField toLowerCase value' terms Or = true).
  { destruct terms as [|t terms]; [destruct value; discriminate|].
    rewrite !(@evaluateField_nonempty toLowerCase _ (t :: terms)) by discriminate.
    cbv zeta. rewrite !existsb_exists.
    intros [lt [Hin Hex]]. exists lt. split; [exact Hin|].
    apply in_map_iff in Hin as [t0 [<- _]].
    apply some_value_spec in Hex as [v [Hv Hc]].
    apply some_value_spec. exists v. split; [apply Hi, Hv | exact Hc]. }
  split; [exact HO|]. split.
  - destruct terms as [|t terms]; [destruct value; discriminate|].
    rewrite !(@evaluateField_nonempty toLowerCase _ (t :: terms)) by discriminate.
    cbv zeta. rewrite !forallb_forall.
    intros Hall lt Hin. specialize (Hall lt Hin).
    apply in_map_iff in Hin as [t0 [<- _]].
    apply some_value_spec in Hall as [v [Hv Hc]].
    apply some_value_spec. exists v. split; [apply Hi, Hv | exact Hc].
  - rewrite !not_is_negb_or, !negb_true_iff.
    intros H'. destruct (evaluateField toLowerCase value terms Or) eqn:E;
      [|reflexivity].
    rewrite (HO eq_refl) in H'. discriminate.
Qed.

End EvaluatorAlgebra.

Lemma evaluateField_and_or_witness :
  evaluateField ascii_toLowerCase (Many [str "Cat"; str "Dog"])
                [str "DOG"; str "cat"] Or = true.
Proof.
  exact (@evaluateField_and_or ascii_toLowerCase (Many [str "Cat"; str "Dog"])
           [str "DOG"; str "cat"] eq_refl).
Defined.

Lemma evaluateField_case_insensitive_witness :
  evaluateField ascii_toLowerCase (Scalar (str "IMG1.png")) [str "img"] And =
  evaluateField ascii_toLowerCase (Many [str "img1.PNG"]) [str "IMG"] And.
Proof.
  exact (@evaluateField_case_insensitive ascii_toLowerCase
           (Scalar (str "IMG1.png")) (Many [str "img1.PNG"])
           [str "img"] [str "IMG"] And eq_refl eq_refl).
Defined.

Lemma evaluateField_more_values_witness :
  evaluateField ascii_toLowerCase (Many [str "Dog"; str "Cat"]) [str "cat"] Or = true.
Proof.
  refine (proj1 (@evaluateField_more_values ascii_toLowerCase
                   (Many [str "Cat"]) (Many [str "Dog"; str "Cat"]) [str "cat"] _)
                eq_refl).
  intros x [<-|[]]. right; left; reflexivity.
Defined.

(** ** More on the query filter *)

Section FilterAlgebra.

Variable toLowerCase : jsstring -> jsstring.

Lemma filter_entries_filter (filters : MultiSearchFilter)
      (fullImageMap : JsMap GalleryEntry) :
  NoDup (map fst fullImageMap) ->
  filter_entries toLowerCase filters fullImageMap =
  map view (filter (fun kv => fields_match toLowerCase filters (fst kv) (snd kv))
                   fullImageMap).
Proof.
  intros Hnd. unfold filter_entries.
  rewrite filter_entries_acc; [reflexivity | exact Hnd|]. intros k _ [].
Qed.

Lemma filter_all (A : Type) (f : A -> bool) (l : list A) :
  (forall x, f x = true) -> filter f l = l.
Proof.
  intros H. induction l as [|x l IH]; simpl; [reflexivity|].
  rewrite H, IH. reflexivity.
Qed.

(** X13. With the three fields switched off, filtering keeps every entry
    of the index, in its order, whatever terms are still selected. *)
Theorem filter_entries_all_disabled (filters : MultiSearchFilter)
        (fullImageMap : JsMap GalleryEntry) :
  NoDup (map fst fullImageMap) ->
  filenameMode filters = Disable -> galleryMode filters = Disable ->
  propertyMode filters = Disable ->
  filter_entries toLowerCase filters fullImageMap = map view fullImageMap.
Proof.
  intros Hnd H1 H2 H3. rewrite (@filter_entries_filter filters fullImageMap Hnd).
  rewrite filter_all; [reflexivity|].
  intros [k e]. unfold fields_match. rewrite H1, H2, H3. reflexivity.
Qed.

(** X14. On an index that [extract] built, the filter needs no side
    condition: its result is that index, in its order, without the entries
    one of the three field evaluations refuses, and no item is in it twice. *)
Theorem filter_entries_extract (filters : MultiSearchFilter)
        (rawData : list RawGalleryData) :
  filter_entries toLowerCase filters (extract_from rawData) =
    map view
        (filter (fun kv => fields_match toLowerCase filters (fst kv) (snd kv))
                (extract_from rawData)) /\
  NoDup (map fst (filter_entries toLowerCase filters (extract_from rawData))).
Proof.
  assert (Hnd : NoDup (map fst (extract_from rawData))).
  { unfold extract_from. rewrite merge_all_keys. apply NoDup_first_seen. }
  rewrite (@filter_entries_filter filters (extract_from rawData) Hnd).
  split; [reflexivity|].
  rewrite map_map. simpl.
  induction (extract_from rawData) as [|[k e] m IH]; simpl; [constructor|].
  simpl in Hnd. inversion Hnd as [|? ? Hk Hm]; subst.
  destruct (fields_match toLowerCase filters k e); simpl; [|exact (IH Hm)].
  constructor; [|exact (IH Hm)].
  rewrite in_map_iff. intros [[k' e'] [E Hin]]. simpl in E. subst k'.
  apply filter_In in Hin as [Hin _]. apply Hk.
  apply in_map_iff. exists (k, e'). auto.
Qed.

Lemma relaxed_field (value : FieldValue) (terms terms' : list jsstring)
      (mode mode' : LogicMode) :
  mode' = Disable \/ (mode' = mode /\ terms' = terms) ->
  evaluateField toLowerCase value terms mode = true ->
  evaluateField toLowerCase value terms' mode' = true.
Proof. intros [-> | [-> ->]]; [reflexivity | auto]. Qed.

(** X15. Switching fields off never loses a result: what a filter keeps,
    every filter that relaxes it keeps too. *)
Theorem filter_entries_relaxed (f f' : MultiSearchFilter)
        (fullImageMap : JsMap GalleryEntry) (kv : jsstring * VirtualGalleryEntry) :
  NoDup (map fst fullImageMap) -> relaxes f f' ->
  In kv (filter_entries toLowerCase f fullImageMap) ->
  In kv (filter_entries toLowerCase f' fullImageMap).
Proof.
  intros Hnd [R1 [R2 R3]].
  rewrite !(fun g => @filter_entries_filter g fullImageMap Hnd), !in_map_iff.
  intros [x [Hx Hin]]. exists x. split; [exact Hx|].
  apply filter_In in Hin as [Hin Hm]. apply filter_In. split; [exact Hin|].
  unfold fields_match in *.
  apply andb_true_iff in Hm as [Hm H3]. apply andb_true_iff in Hm as [H1 H2].
  rewrite (relaxed_field _ R1 H1), (relaxed_field _ R2 H2), (relaxed_field _ R3 H3).
  reflexivity.
Qed.

End FilterAlgebra.

Lemma filter_entries_all_disabled_witness :
  filter_entries ascii_toLowerCase
    (mkFilter Disable Disable Disable [str "zzz"] [] [str "q"])
    [ (str "a.png", mkEntry (str "a.png") [str "A"] []);
      (str "b.png", mkEntry (str "b.png") [str "B"] [str "red"]) ] =
  [ (str "a.png", mkVirtual [] [str "A"]);
    (str "b.png", mkVirtual [str "red"] [str "B"]) ].
Proof.
  refine (@filter_entries_all_disabled ascii_toLowerCase
            (mkFilter Disable Disable Disable [str "zzz"] [] [str "q"])
            [ (str "a.png", mkEntry (str "a.png") [str "A"] []);
              (str "b.png", mkEntry (str "b.png") [str "B"] [str "red"]) ]
            _ eq_refl eq_refl eq_refl).
  constructor; [|constructor; [|constructor]]; simpl; intuition discriminate.
Defined.

Lemma filter_entries_relaxed_witness :
  In (str "b.png", mkVirtual [str "red"] [str "B"])
     (filter_entries ascii_toLowerCase
        (mkFilter Disable Disable Or [] [] [str "RED"])
        [ (str "a.png", mkEntry (str "a.png") [str "A"] []);
          (str "b.png", mkEntry (str "b.png") [str "B"] [str "red"]) ]).
Proof.
  refine (@filter_entries_relaxed ascii_toLowerCase
            (mkFilter And Disable Or [str "b"] [] [str "RED"])
            (mkFilter Disable Disable Or [] [] [str "RED"])
            [ (str "a.png", mkEntry (str "a.png") [str "A"] []);
              (str "b.png", mkEntry (str "b.png") [str "B"] [str "red"]) ]
            _ _ _ _).
  - constructor; [|constructor; [|constructor]]; simpl; intuition discriminate.
  - unfold relaxes; simpl. auto.
  - left; reflexivity.
Defined.

(** ** More on the source selector *)

Lemma virtual_loop_acc (vault : Vault) (sourceData : list jsstring)
      (files : list TFile) (results : list RawGalleryData) :
  virtual_loop vault sourceData files results =
  (blocks <- virtual_loop vault sourceData files [] ;; Resolved (results ++ blocks)).
Proof.
  revert results; induction files as [|f files IH]; intros results; simpl.
  - rewrite app_nil_r; reflexivity.
  - destruct (cachedRead vault f) as [text|reason]; simpl; [|reflexivity].
    destruct (existsb (fun tag => includes text tag) sourceData); [|apply IH].
    rewrite IH. rewrite (IH (push [] _)). unfold push.
    destruct (virtual_loop vault sourceData files []); simpl; [|reflexivity].
    rewrite <- app_assoc. reflexivity.
Qed.

Lemma virtual_loop_cons (vault : Vault) (sourceData : list jsstring)
      (f : TFile) (files : list TFile) :
  virtual_loop vault sourceData (f :: files) [] =
  (text <- cachedRead vault f ;;
   blocks <- virtual_loop vault sourceData files [] ;;
   Resolved (marked_block vault sourceData f ++ blocks)).
Proof.
  simpl. unfold marked_block.
  destruct (cachedRead vault f) as [text|reason]; simpl; [|reflexivity].
  destruct (existsb (fun tag => includes text tag) sourceData).
  - rewrite virtual_loop_acc. reflexivity.
  - destruct (virtual_loop vault sourceData files []); reflexivity.
Qed.

Lemma virtual_loop_resolved (vault : Vault) (sourceData : list jsstring)
      (files : list TFile) (blocks : list RawGalleryData) :
  virtual_loop vault sourceData files [] = Resolved blocks ->
  Forall (readable vault) files /\
  blocks = flat_map (marked_block vault sourceData) files.
Proof.
  revert blocks; induction files as [|f files IH]; intros blocks.
  - intros [= <-]. split; [constructor | reflexivity].
  - rewrite virtual_loop_cons.
    destruct (cachedRead vault f) as [text|reason] eqn:R; simpl; [|discriminate].
    destruct (virtual_loop vault sourceData files []) as [rest|];
      simpl; [|discriminate].
    intros [= <-]. destruct (IH rest eq_refl) as [Hr ->].
    split; [|reflexivity]. constructor; [exists text; exact R | exact Hr].
Qed.

Lemma virtual_loop_readable (vault : Vault) (sourceData : list jsstring)
      (files : list TFile) :
  Forall (readable vault) files ->
  virtual_loop vault sourceData files [] =
  Resolved (flat_map (marked_block vault sourceData) files).
Proof.
  induction 1 as [|f files [text R] Hr IH]; [reflexivity|].
  rewrite virtual_loop_cons, R, IH. reflexivity.
Qed.

Lemma virtual_loop_rejected (vault : Vault) (sourceData : list jsstring)
      (before after : list TFile) (f : TFile) (reason : jsstring) :
  Forall (readable vault) before ->
  cachedRead vault f = Rejected reason ->
  virtual_loop vault sourceData (before ++ f :: after) [] = Rejected reason.
Proof.
  induction 1 as [|g before [text R] Hr IH]; intros Hf.
  - simpl. rewrite Hf. reflexivity.
  - change ((g :: before) ++ f :: after) with (g :: (before ++ f :: after)).
    rewrite virtual_loop_cons, R, (IH Hf). reflexivity.
Qed.

(** X16. Under the virtual policy every document of the vault is read.
    The call resolves exactly when all the reads succeed, and then to one
    block per document whose text holds one of the markers, in the order of
    the vault, named by the document's base name and holding its lines. *)
Theorem getGalleryContent_virtual (vault : Vault) (sourceData : list jsstring) :
  ((exists blocks, getGalleryContent vault Virtual sourceData = Resolved blocks) <->
   Forall (readable vault) (getMarkdownFiles vault)) /\
  (forall blocks,
      getGalleryContent vault Virtual sourceData = Resolved blocks ->
      blocks = flat_map (marked_block vault sourceData) (getMarkdownFiles vault)).
Proof.
  unfold getGalleryContent. split; [split|].
  - intros [blocks H]. exact (proj1 (virtual_loop_resolved _ _ _ H)).
  - intros H. eexists. apply virtual_loop_readable, H.
  - intros blocks H. exact (proj2 (virtual_loop_resolved _ _ _ H)).
Qed.

Lemma getGalleryContent_virtual_witness :
  [mkRaw [str "<![[img1.png]]<red,large>>"] (str "B")] =
  flat_map (marked_block two_notes [str "red"; str "blue"])
           (getMarkdownFiles two_notes).
Proof.
  exact (proj2 (getGalleryContent_virtual two_notes [str "red"; str "blue"]) _
               eq_refl).
Defined.

Lemma explicit_loop_cons_found (vault : Vault) (name : jsstring)
      (names : list jsstring) (file : TFile) :
  find (fun f => str_eqb (basename f) name) (getMarkdownFiles vault) = Some file ->
  explicit_loop vault (getMarkdownFiles vault) (name :: names) [] =
  (text <- cachedRead vault file ;;
   blocks <- explicit_loop vault (getMarkdownFiles vault) names [] ;;
   Resolved (mkRaw (split newline text) (basename file) :: blocks)).
Proof.
  intros F. simpl. rewrite F.
  destruct (cachedRead vault file); simpl; [|reflexivity].
  rewrite explicit_loop_acc. reflexivity.
Qed.

Lemma explicit_loop_rejected (vault : Vault) (before after : list jsstring)
      (name : jsstring) (file : TFile) (reason : jsstring) :
  Forall (name_readable vault) before ->
  find (fun f => str_eqb (basename f) name) (getMarkdownFiles vault) = Some file ->
  cachedRead vault file = Rejected reason ->
  explicit_loop vault (getMarkdownFiles vault) (before ++ name :: after) [] =
  Rejected reason.
Proof.
  induction 1 as [|n before Hn Hr IH]; intros Hf HR.
  - simpl app. rewrite (@explicit_loop_cons_found vault name after file Hf), HR.
    reflexivity.
  - change ((n :: before) ++ name :: after) with (n :: (before ++ name :: after)).
    destruct (find (fun f => str_eqb (basename f) n) (getMarkdownFiles vault))
      as [g|] eqn:G.
    + rewrite (@explicit_loop_cons_found vault n (before ++ name :: after) g G).
      destruct (Hn g G) as [text ->]. simpl. rewrite (IH Hf HR). reflexivity.
    + simpl. rewrite G. exact (IH Hf HR).
Qed.

(** X17. A failing read ends the whole call: under either policy the call
    rejects with the reason of the first read that fails, and the blocks
    collected before it are lost. *)
Theorem getGalleryContent_fail_fast (vault : Vault) (reason : jsstring) :
  (forall sourceData before after file,
      getMarkdownFiles vault = before ++ file :: after ->
      Forall (readable vault) before ->
      cachedRead vault file = Rejected reason ->
      getGalleryContent vault Virtual sourceData = Rejected reason) /\
  (forall before after name file,
      Forall (name_readable vault) before ->
      find (fun f => str_eqb (basename f) name) (getMarkdownFiles vault) = Some file ->
      cachedRead vault file = Rejected reason ->
      getGalleryContent vault Explicit (before ++ name :: after) = Rejected reason).
Proof.
  unfold getGalleryContent. split.
  - intros sourceData before after file -> Hr HR.
    apply virtual_loop_rejected; assumption.
  - intros before after name file Hr Hf HR.
    apply explicit_loop_rejected with (file := file); assumption.
Qed.

Lemma getGalleryContent_fail_fast_witness :
  getGalleryContent broken_notes Virtual [mdGallery] = Rejected (str "ENOENT") /\
  getGalleryContent broken_notes Explicit [str "A"; str "B"; str "C"] =
    Rejected (str "ENOENT").
Proof.
  destruct (getGalleryContent_fail_fast broken_notes (str "ENOENT")) as [HV HE].
  split.
  - refine (HV [mdGallery] [mkFile (str "A") (str "A.md")]
               [mkFile (str "C") (str "C.md")] (mkFile (str "B") (str "B.md"))
               eq_refl _ eq_refl).
    constructor; [|constructor]. exists (str "#mdGallery"). reflexivity.
  - refine (HE [str "A"] [str "C"] (str "B") (mkFile (str "B") (str "B.md"))
               _ eq_refl eq_refl).
    constructor; [|constructor]. intros file [= <-].
    exists (str "#mdGallery"). reflexivity.
Defined.

(** ** The content sources of the views *)

Lemma block_text_split (text name : jsstring) :
  block_text (mkRaw (split newline text) name) = text.
Proof. unfold block_text. simpl. apply join_split. Qed.

Lemma explicit_source_loop_blocks (vault : Vault) (mdFiles : list TFile)
      (names : list jsstring) (results : list RawGalleryData) :
  explicit_source_loop vault mdFiles names (map block_text results) =
  (blocks <- explicit_loop vault mdFiles names results ;;
   Resolved (map block_text blocks)).
Proof.
  revert results; induction names as [|name names IH]; intros results; simpl;
    [reflexivity|].
  destruct (find _ mdFiles) as [file|]; [|apply IH].
  destruct (cachedRead vault file) as [text|reason]; simpl; [|reflexivity].
  rewrite <- IH. unfold push. rewrite map_app. simpl.
  rewrite block_text_split. reflexivity.
Qed.

Lemma tag_source_loop_blocks (vault : Vault) (tag : jsstring)
      (files : list TFile) (results : list RawGalleryData) :
  tag_source_loop vault tag files (map block_text results) =
  (blocks <- virtual_loop vault [tag] files results ;;
   Resolved (map block_text blocks)).
Proof.
  revert results; induction files as [|f files IH]; intros results; simpl;
    [reflexivity|].
  destruct (cachedRead vault f) as [text|reason]; simpl; [|reflexivity].
  rewrite orb_false_r. destruct (includes text tag); [|apply IH].
  rewrite <- IH. unfold push. rewrite map_app. simpl.
  rewrite block_text_split. reflexivity.
Qed.

(** X18. The two content sources handed to the views read what the
    selector reads: the explicit one yields the texts of the blocks of the
    explicit policy for the same names, the tag-based one the texts of the
    blocks of the virtual policy for that one tag, in the same order, and
    each rejects when the selector rejects. *)
Theorem gallery_sources_agree (vault : Vault) :
  (forall galleryNames,
      ExplicitNameGallerySource_getGalleryContent galleryNames vault =
      (blocks <- getGalleryContent vault Explicit galleryNames ;;
       Resolved (map block_text blocks))) /\
  (forall tag,
      TagBasedGallerySource_getGalleryContent tag vault =
      (blocks <- getGalleryContent vault Virtual [tag] ;;
       Resolved (map block_text blocks))).
Proof.
  split; intros x.
  - exact (explicit_source_loop_blocks vault (getMarkdownFiles vault) x []).
  - exact (tag_source_loop_blocks vault x (getMarkdownFiles vault) []).
Qed.

(** ** The autocomplete options *)

Lemma add_parsed_lines_spec (name : jsstring) (lines : list jsstring)
      (opts : AutocompleteOptions) :
  fold_left (add_parsed_line name) lines opts =
  let records := parse_block (mkRaw lines name) in
  mkOptions (fold_left set_add (map one_filename records) (opt_filenames opts))
            (opt_galleries opts)
            (fold_left set_add (flat_map one_properties records) (opt_properties opts)).
Proof.
  revert opts; induction lines as [|line lines IH]; intros opts.
  - destruct opts; reflexivity.
  - cbn [fold_left]. rewrite IH. unfold parse_block, add_parsed_line. simpl.
    destruct (parseGalleryLine line name) as [parsed|]; simpl; [|reflexivity].
    rewrite fold_left_app. reflexivity.
Qed.

Lemma add_blocks_spec (blocks : list RawGalleryData) (opts : AutocompleteOptions) :
  add_blocks opts blocks =
  mkOptions
    (fold_left set_add (map one_filename (parse_lines blocks)) (opt_filenames opts))
    (fold_left set_add (map galleryName blocks) (opt_galleries opts))
    (fold_left set_add (flat_map one_properties (parse_lines blocks))
               (opt_properties opts)).
Proof.
  rewrite parse_lines_blocks. unfold add_blocks.
  revert opts; induction blocks as [|b blocks IH]; intros opts.
  - destruct opts; reflexivity.
  - cbn [fold_left]. rewrite IH. unfold add_document.
    rewrite add_parsed_lines_spec. cbv zeta. simpl.
    rewrite map_app, flat_map_app, !fold_left_app.
    destruct b; reflexivity.
Qed.

Lemma autocomplete_loop_blocks (vault : Vault) (files : list TFile)
      (opts : AutocompleteOptions) :
  autocomplete_loop vault files opts =
  (blocks <- virtual_loop vault [mdGallery] files [] ;;
   Resolved (add_blocks opts blocks)).
Proof.
  revert opts; induction files as [|f files IH]; intros opts; [reflexivity|].
  rewrite virtual_loop_cons. simpl. unfold marked_block.
  destruct (cachedRead vault f) as [text|reason]; simpl; [|reflexivity].
  rewrite orb_false_r. change (str "#mdGallery") with mdGallery.
  destruct (includes text mdGallery); simpl; rewrite IH;
    destruct (virtual_loop vault [mdGallery] files []); reflexivity.
Qed.

Lemma fold_set_add_first_seen (l : list jsstring) :
  fold_left set_add l [] = first_seen l.
Proof. symmetry. exact (first_seen_app [] l). Qed.

Lemma autocomplete_of_blocks (vault : Vault) :
  extractAutocompleteOptions vault =
  (rawData <- getGalleryContent vault Virtual [mdGallery] ;;
   Resolved
     (mkOptions (first_seen (map one_filename (parse_lines rawData)))
                (first_seen (map galleryName rawData))
                (first_seen (flat_map one_properties (parse_lines rawData))))).
Proof.
  unfold extractAutocompleteOptions, getGalleryContent.
  rewrite autocomplete_loop_blocks.
  destruct (virtual_loop vault [mdGallery] (getMarkdownFiles vault) []); simpl;
    [|reflexivity].
  rewrite add_blocks_spec. simpl. rewrite !fold_set_add_first_seen. reflexivity.
Qed.

(** X19. The autocomplete options are computed from the blocks that the
    virtual policy selects for the tag [#mdGallery]: the file names are the
    references of the parsed lines, the galleries the names of the blocks,
    the properties those of the parsed lines, each once and in first-seen
    order; the call rejects exactly when the selection does. *)
Theorem extractAutocompleteOptions_spec (vault : Vault) :
  extractAutocompleteOptions vault =
  (rawData <- getGalleryContent vault Virtual [mdGallery] ;;
   Resolved
     (mkOptions (first_seen (map one_filename (parse_lines rawData)))
                (first_seen (map galleryName rawData))
                (first_seen (flat_map one_properties (parse_lines rawData))))).
Proof. exact (autocomplete_of_blocks vault). Qed.

(** X20. The suggestions of the search view fit its index: when the
    options resolve, so does the index built for the same tag; the file
    names offered are its items in its order, the properties offered are
    those that occur in its entries, and every source of an entry is among
    the galleries offered. *)
Theorem autocomplete_matches_index (vault : Vault) (opts : AutocompleteOptions) :
  extractAutocompleteOptions vault = Resolved opts ->
  exists index,
    extract vault Virtual [mdGallery] = Resolved index /\
    opt_filenames opts = map fst index /\
    (forall p, In p (opt_properties opts) <->
               exists k e, map_get index k = Some e /\ In p (properties e)) /\
    (forall k e g, map_get index k = Some e -> In g (galleries e) ->
                   In g (opt_galleries opts)).
Proof.
  rewrite autocomplete_of_blocks. unfold extract.
  destruct (getGalleryContent vault Virtual [mdGallery]) as [rawData|]; simpl;
    [|discriminate].
  intros [= <-]. exists (extract_from rawData). simpl.
  split; [reflexivity|]. split; [|split].
  - unfold extract_from. rewrite merge_all_keys. reflexivity.
  - intros p. rewrite In_first_seen, in_flat_map. split.
    + intros [r [Hr Hp]].
      destruct (entry_for (one_filename r) (parse_lines rawData)) as [e|] eqn:E.
      * exists (one_filename r), e. unfold extract_from. rewrite merge_all_get.
        split; [exact E|].
        apply (proj2 (index_membership rawData (one_filename r))).
        { unfold extract_from. rewrite merge_all_get. exact E. }
        exists r. rewrite <- parse_lines_In. auto.
      * unfold entry_for in E.
        destruct (records_of (one_filename r) (parse_lines rawData)) eqn:F;
          [|discriminate].
        assert (Hin : In r (records_of (one_filename r) (parse_lines rawData)))
          by (apply records_of_In; auto).
        rewrite F in Hin. destruct Hin.
    + intros [k [e [He Hp]]].
      apply (proj2 (index_membership rawData k) e He) in Hp as [r [Hr [_ Hp]]].
      exists r. rewrite parse_lines_In. auto.
  - intros k e g He Hg.
    apply (proj2 (index_membership rawData k) e He) in Hg
      as [r [[b [line [Hb [_ Hp]]]] [_ Hg]]].
    apply In_first_seen, in_map_iff. exists b. split; [|exact Hb].
    unfold parseGalleryLine in Hp.
    destruct (match match_annotated line with
              | Some m => Some m | None => match_bare line end);
      [|discriminate].
    injection Hp as <-. simpl in Hg. exact Hg.
Qed.

Lemma autocomplete_matches_index_witness :
  exists index,
    extract gallery_notes Virtual [mdGallery] = Resolved index /\
    [str "img1.png"; str "cat.jpg"] = map fst index /\
    (forall p, In p [str "red"; str "large"] <->
               exists k e, map_get index k = Some e /\ In p (properties e)) /\
    (forall k e g, map_get index k = Some e -> In g (galleries e) ->
                   In g [str "A"; str "B"]).
Proof.
  exact (@autocomplete_matches_index gallery_notes
           (mkOptions [str "img1.png"; str "cat.jpg"] [str "A"; str "B"]
                      [str "red"; str "large"]) eq_refl).
Defined.

(** ** The names in a code block *)

Lemma link_at_sound (s g rest : jsstring) :
  link_at s = Some (g, rest) ->
  s = str "[[" ++ g ++ str "]]" ++ rest /\ no_line_terminator g /\
  includes g (str "]]") = false.
Proof.
  unfold link_at. destruct (lit (str "[[") s) as [s1|] eqn:E1; [|discriminate].
  apply lit_spec in E1. subst s. intros H.
  apply lazy_dot_minimal in H as [g' [r1 [-> [Hg [Hk Hmin]]]]].
  unfold link_tail in Hk. simpl app in Hk.
  destruct (lit (str "]]") r1) as [s2|] eqn:E2; [|discriminate].
  apply lit_spec in E2. subst r1. injection Hk as <- <-.
  split; [reflexivity|]. split; [exact Hg|].
  apply includes_false. intros pre post F.
  specialize (Hmin pre 93%N (93%N :: post)).
  rewrite F in Hmin. specialize (Hmin eq_refl).
  unfold link_tail in Hmin. discriminate Hmin.
Qed.

Lemma link_at_shorter (s g rest : jsstring) :
  link_at s = Some (g, rest) -> List.length rest < List.length s.
Proof.
  intros H. apply link_at_sound in H as [-> _].
  rewrite !length_app. simpl. lia.
Qed.

Lemma link_at_miss (c : N) (s : jsstring) : c <> 91%N -> link_at (c :: s) = None.
Proof.
  intros H. unfold link_at. change (str "[[") with (91%N :: [91%N]).
  rewrite lit_head_mismatch by exact H. reflexivity.
Qed.

Lemma link_at_canonical (n rest : jsstring) :
  no_line_terminator n -> ~ In 93%N n ->
  link_at (str "[[" ++ n ++ str "]]" ++ rest) = Some (n, rest).
Proof.
  intros Hn Hc. unfold link_at. rewrite lit_app.
  rewrite lazy_dot_first; [|exact Hn|].
  - change ([] ++ n) with n. apply lazy_dot_here.
    unfold link_tail. rewrite lit_app. reflexivity.
  - intros a c b ->. unfold link_tail.
    change (str "]]") with (93%N :: [93%N]).
    rewrite lit_head_mismatch; [reflexivity|].
    intros ->. apply Hc, in_or_app. right; left; reflexivity.
Qed.

(** Any fuel above the length of the text gives the same names. *)
Lemma matchAll_links_fuel (f1 f2 : nat) (s : jsstring) :
  List.length s < f1 -> List.length s < f2 ->
  matchAll_links f1 s = matchAll_links f2 s.
Proof.
  revert f2 s; induction f1 as [|f1 IH]; intros f2 s H1 H2; [lia|].
  destruct f2 as [|f2]; [lia|]. simpl.
  destruct (link_at s) as [[g rest]|] eqn:E.
  - apply link_at_shorter in E. f_equal. apply IH; lia.
  - destruct s as [|c s]; [reflexivity|]. simpl in *. apply IH; lia.
Qed.

Lemma includes_app_r (t r : jsstring) : includes (t ++ r) t = true.
Proof. apply includes_spec. exists [], r. reflexivity. Qed.

Lemma includes_app_l (a s t : jsstring) :
  includes s t = true -> includes (a ++ s) t = true.
Proof.
  rewrite !includes_spec. intros [p [q ->]]. exists (a ++ p), q.
  rewrite <- app_assoc. reflexivity.
Qed.

Lemma link_text_assoc (g rest : jsstring) :
  str "[[" ++ g ++ str "]]" ++ rest = (str "[[" ++ g ++ str "]]") ++ rest.
Proof. rewrite <- !app_assoc. reflexivity. Qed.

Lemma matchAll_links_sound (fuel : nat) (s name : jsstring) :
  In name (matchAll_links fuel s) ->
  includes s (str "[[" ++ name ++ str "]]") = true /\
  no_line_terminator name /\ includes name (str "]]") = false.
Proof.
  revert s; induction fuel as [|fuel IH]; intros s; simpl; [intros []|].
  destruct (link_at s) as [[g rest]|] eqn:E.
  - apply link_at_sound in E as [-> [Hg Hn]]. intros [<-|H].
    + split; [|split; assumption].
      rewrite link_text_assoc. apply includes_app_r.
    + destruct (IH _ H) as [Hi Hrest]. split; [|exact Hrest].
      rewrite link_text_assoc. apply includes_app_l, Hi.
  - destruct s as [|c s]; [intros []|]. intros H.
    destruct (IH _ H) as [Hi Hrest]. split; [|exact Hrest].
    exact (@includes_app_l [c] s _ Hi).
Qed.

(** X21. Every name taken from a code block stands in its text between
    [[[] and []]], holds no line terminator and no []]]; and the names do
    not depend on the fuel, once it exceeds the length of the text. *)
Theorem codeblock_names_sound (source : jsstring) :
  (forall name,
      In name (codeblock_names source) ->
      includes source (str "[[" ++ name ++ str "]]") = true /\
      no_line_terminator name /\ includes name (str "]]") = false) /\
  (forall fuel,
      List.length source < fuel ->
      matchAll_links fuel source = codeblock_names source).
Proof.
  split.
  - intros name. apply matchAll_links_sound.
  - intros fuel H. apply matchAll_links_fuel; [exact H | lia].
Qed.

Lemma codeblock_names_sound_witness :
  includes (str "see [[A]] and [[B b]]") (str "[[" ++ str "B b" ++ str "]]") = true /\
  no_line_terminator (str "B b") /\ includes (str "B b") (str "]]") = false.
Proof.
  refine (proj1 (codeblock_names_sound (str "see [[A]] and [[B b]]")) (str "B b") _).
  right; left; reflexivity.
Defined.

Lemma matchAll_links_S (fuel : nat) (s : jsstring) :
  matchAll_links (S fuel) s =
  match link_at s with
  | Some (g, rest) => g :: matchAll_links fuel rest
  | None =>
      match s with
      | [] => []
      | _ :: s' => matchAll_links fuel s'
      end
  end.
Proof. reflexivity. Qed.

Lemma matchAll_links_plain (fuel : nat) (t : jsstring) :
  ~ In 91%N t -> matchAll_links fuel t = [].
Proof.
  revert t; induction fuel as [|fuel IH]; intros t H; [reflexivity|].
  destruct t as [|c t]; [reflexivity|]. simpl.
  rewrite link_at_miss by (intros ->; apply H; left; reflexivity).
  apply IH. intros F; apply H; right; exact F.
Qed.

Lemma matchAll_links_skip (sep s : jsstring) (fuel : nat) :
  ~ In 91%N sep ->
  matchAll_links (List.length sep + fuel) (sep ++ s) = matchAll_links fuel s.
Proof.
  induction sep as [|c sep IH]; intros H; [reflexivity|]. simpl.
  rewrite link_at_miss by (intros ->; apply H; left; reflexivity).
  apply IH. intros F; apply H; right; exact F.
Qed.

Lemma matchAll_links_items (items : list (jsstring * jsstring)) (tail : jsstring)
      (fuel : nat) :
  Forall (fun it => ~ In 91%N (fst it) /\ ~ In 93%N (snd it) /\
                    no_line_terminator (snd it)) items ->
  ~ In 91%N tail ->
  List.length (codeblock_source items tail) < fuel ->
  matchAll_links fuel (codeblock_source items tail) = map snd items.
Proof.
  intros Hall Ht. revert fuel.
  induction Hall as [|[sep n] items [Hs [Hn Hl]] Hall IH]; intros fuel Hf.
  - apply matchAll_links_plain, Ht.
  - simpl in Hs, Hn, Hl.
    assert (E : codeblock_source ((sep, n) :: items) tail =
                sep ++ str "[[" ++ n ++ str "]]" ++ codeblock_source items tail).
    { unfold codeblock_source. cbn [flat_map fst snd].
      rewrite <- !app_assoc. reflexivity. }
    rewrite E in *. clear E.
    set (rest := codeblock_source items tail) in *.
    set (X := str "[[" ++ n ++ str "]]" ++ rest) in *.
    rewrite (@matchAll_links_fuel fuel (List.length sep + S (List.length X)) (sep ++ X))
      by (try exact Hf; rewrite length_app; lia).
    rewrite matchAll_links_skip by exact Hs.
    rewrite matchAll_links_S. unfold X at 1.
    rewrite link_at_canonical by assumption.
    simpl map. f_equal. apply IH.
    unfold X. rewrite !length_app. simpl. lia.
Qed.

(** X22. From a code block written as links [[[name]]] with text free of
    ['['] around them, the names come back as written, in their order,
    provided no name holds a [']'] or a line terminator. *)
Theorem codeblock_names_roundtrip (items : list (jsstring * jsstring))
        (tail : jsstring) :
  Forall (fun it => ~ In 91%N (fst it) /\ ~ In 93%N (snd it) /\
                    no_line_terminator (snd it)) items ->
  ~ In 91%N tail ->
  codeblock_names (codeblock_source items tail) = map snd items.
Proof.
  intros Hall Ht. unfold codeblock_names.
  apply matchAll_links_items; [exact Hall | exact Ht | lia].
Qed.

Lemma codeblock_names_roundtrip_witness :
  codeblock_names
    (codeblock_source [(str "", str "Trip 2024"); ([newline], str "B")] (str " ok"))
  = [str "Trip 2024"; str "B"].
Proof.
  refine (@codeblock_names_roundtrip
            [(str "", str "Trip 2024"); ([newline], str "B")] (str " ok") _ _).
  - repeat constructor; simpl; intuition discriminate.
  - simpl; intuition discriminate.
Defined.

(** ** The selection of a search block *)

Lemma indexOf_from_found (arr : list jsstring) (x : jsstring) (i : Z) :
  In x arr ->
  exists a b, arr = a ++ x :: b /\ ~ In x a /\
              indexOf_from arr x i = (i + Z.of_nat (List.length a))%Z.
Proof.
  revert i; induction arr as [|y arr IH]; intros i H; [destruct H|]. simpl.
  destruct (str_eqb y x) eqn:E.
  - apply str_eqb_eq in E. subst y. exists [], arr.
    split; [reflexivity|]. split; [intros []|]. simpl. lia.
  - apply str_eqb_neq in E. destruct H as [H|H]; [contradiction|].
    destruct (IH (i + 1)%Z H) as [a [b [-> [Ha Hi]]]].
    exists (y :: a), b. split; [reflexivity|]. split.
    + intros [F|F]; [contradiction | exact (Ha F)].
    + rewrite Hi. simpl List.length. lia.
Qed.

Lemma indexOf_from_absent (arr : list jsstring) (x : jsstring) (i : Z) :
  ~ In x arr -> indexOf_from arr x i = (-1)%Z.
Proof.
  revert i; induction arr as [|y arr IH]; intros i H; [reflexivity|]. simpl.
  destruct (str_eqb y x) eqn:E.
  - apply str_eqb_eq in E. destruct H; left; exact E.
  - apply IH. intros F; apply H; right; exact F.
Qed.

Lemma firstn_skipn_middle (A : Type) (a b : list A) (x : A) :
  firstn (List.length a) (a ++ x :: b) = a /\
  skipn (S (List.length a)) (a ++ x :: b) = b.
Proof.
  induction a as [|y a [IH1 IH2]]; simpl; [split; reflexivity|].
  rewrite IH1. split; [reflexivity | exact IH2].
Qed.

Lemma splice_one_at (A : Type) (a b : list A) (x : A) :
  splice_one (a ++ x :: b) (Z.of_nat (List.length a)) = a ++ b.
Proof.
  unfold splice_one.
  assert (H : (Z.of_nat (List.length a) <? 0)%Z = false) by (apply Z.ltb_ge; lia).
  rewrite H, length_app. simpl List.length.
  rewrite Z.min_l by lia. rewrite Nat2Z.id.
  destruct (firstn_skipn_middle a b x) as [-> ->]. reflexivity.
Qed.

Lemma splice_one_last (A : Type) (arr : list A) :
  splice_one arr (-1)%Z = removelast arr.
Proof.
  destruct arr as [|x arr _] using rev_ind; [reflexivity|].
  rewrite removelast_last. unfold splice_one.
  change ((-1 <? 0)%Z) with true. cbv iota.
  rewrite length_app. simpl List.length.
  replace (Z.to_nat (Z.max (Z.of_nat (List.length arr + 1) + -1) 0))
    with (List.length arr) by lia.
  destruct (firstn_skipn_middle arr [] x) as [-> ->]. apply app_nil_r.
Qed.

Lemma filter_id (A : Type) (f : A -> bool) (l : list A) :
  (forall x, In x l -> f x = true) -> filter f l = l.
Proof.
  induction l as [|x l IH]; intros H; simpl; [reflexivity|].
  rewrite (H x (or_introl eq_refl)), IH; [reflexivity|].
  intros y Hy. apply H; right; exact Hy.
Qed.

Lemma remove_chip_found (l : list jsstring) (tag : jsstring) :
  In tag l ->
  exists a b, l = a ++ tag :: b /\ ~ In tag a /\ remove_chip l tag = a ++ b.
Proof.
  intros H. destruct (@indexOf_from_found l tag 0%Z H) as [a [b [-> [Ha Hi]]]].
  exists a, b. split; [reflexivity|]. split; [exact Ha|].
  unfold remove_chip, indexOf. rewrite Hi. apply splice_one_at.
Qed.

(** X23. The handler of a chip removes the first occurrence of its tag.
    In a selection without repetitions that is the chip itself: the tag is
    gone and every other term stays in place.  Were the tag not in the
    list, the last term would be removed. *)
Theorem remove_chip_spec (l : list jsstring) (tag : jsstring) :
  (In tag l ->
   exists a b, l = a ++ tag :: b /\ ~ In tag a /\ remove_chip l tag = a ++ b) /\
  (NoDup l -> In tag l ->
   remove_chip l tag = filter (fun x => negb (str_eqb x tag)) l) /\
  (~ In tag l -> remove_chip l tag = removelast l).
Proof.
  split; [apply remove_chip_found|]. split.
  - intros Hnd H. destruct (@remove_chip_found l tag H) as [a [b [-> [Ha ->]]]].
    apply NoDup_remove_2 in Hnd.
    assert (Hb : ~ In tag b) by (intros F; apply Hnd, in_or_app; right; exact F).
    rewrite filter_app. simpl. rewrite str_eqb_refl. simpl.
    rewrite !filter_id; [reflexivity | |];
      intros x Hx; apply negb_true_iff, str_eqb_neq; intros ->; contradiction.
  - intros H. unfold remove_chip, indexOf.
    rewrite indexOf_from_absent by exact H. apply splice_one_last.
Qed.

Lemma remove_chip_spec_witness :
  remove_chip [str "red"; str "large"; str "blue"] (str "large") =
  filter (fun x => negb (str_eqb x (str "large")))
         [str "red"; str "large"; str "blue"].
Proof.
  refine (proj1 (proj2 (remove_chip_spec [str "red"; str "large"; str "blue"]
                          (str "large"))) _ _).
  - constructor; [|constructor; [|constructor; [|constructor]]];
      simpl; intuition discriminate.
  - right; left; reflexivity.
Defined.

Section SearchBlockFacts.

Variable toLowerCase : jsstring -> jsstring.
Variable suggestions : list jsstring.

Lemma block_step_ok (st : SearchBlock) (ev : BlockEvent) :
  block_ok suggestions st ->
  block_ok suggestions (block_step toLowerCase suggestions st ev).
Proof.
  intros [Hnd [Hincl Hitems]]. destruct ev as [value | i | i]; simpl.
  - split; [exact Hnd|]. split; [exact Hincl|]. simpl.
    intros x Hx. apply filter_In in Hx as [Hs Hx].
    apply andb_true_iff in Hx as [_ Hx]. apply negb_true_iff in Hx.
    split; [exact Hs | apply array_includes_not_In; exact Hx].
  - destruct (nth_error (suggestionItems st) i) as [item|] eqn:E;
      [|split; [exact Hnd | split; [exact Hincl | exact Hitems]]].
    apply nth_error_In in E. destruct (Hitems item E) as [Hs Hn].
    split; [|split]; simpl.
    + unfold push. apply NoDup_rev in Hnd.
      rewrite <- (rev_involutive (selectedList st ++ [item])).
      apply NoDup_rev. rewrite rev_app_distr. simpl.
      constructor; [rewrite <- in_rev; exact Hn | exact Hnd].
    + unfold push. intros x Hx. apply in_app_or in Hx as [Hx|[<-|[]]];
        [apply Hincl, Hx | exact Hs].
    + intros x [].
  - destruct (nth_error (selectedList st) i) as [tag|] eqn:E;
      [|split; [exact Hnd | split; [exact Hincl | exact Hitems]]].
    apply nth_error_In in E.
    destruct (@remove_chip_found (selectedList st) tag E) as [a [b [El [Ha ->]]]].
    rewrite El in Hnd, Hincl.
    assert (Hsub : forall x, In x (a ++ b) -> In x (a ++ tag :: b)).
    { intros x Hx. apply in_app_or in Hx. apply in_or_app.
      destruct Hx; [left | right; right]; assumption. }
    split; [|split]; simpl.
    + exact (NoDup_remove_1 _ _ _ Hnd).
    + intros x Hx. apply Hincl, Hsub, Hx.
    + intros x Hx. destruct (Hitems x Hx) as [Hs Hn]. split; [exact Hs|].
      intros F. apply Hn. rewrite El. apply Hsub, F.
Qed.

(** X24. Whatever the user types and clicks, the selection of a search
    block never holds a term twice, holds only terms that were suggested,
    and no item on offer is a term already selected. *)
Theorem block_run_ok (events : list BlockEvent) :
  block_ok suggestions (block_run toLowerCase suggestions events) /\
  NoDup (getSelected (block_run toLowerCase suggestions events)).
Proof.
  assert (H : block_ok suggestions (block_run toLowerCase suggestions events)).
  { unfold block_run.
    assert (G : forall st, block_ok suggestions st ->
                block_ok suggestions
                  (fold_left (block_step toLowerCase suggestions) events st)).
    { induction events as [|ev events IH]; intros st Hst; simpl; [exact Hst|].
      apply IH, block_step_ok, Hst. }
    apply G. split; [constructor|]. split; [intros x []|]. intros x []. }
  split; [exact H | exact (proj1 H)].
Qed.

End SearchBlockFacts.

(** ** The index only grows *)

Lemma set_add_extends (s : list jsstring) (x : jsstring) :
  exists more, set_add s x = s ++ more.
Proof.
  unfold set_add, push. destruct (array_includes s x).
  - exists []. rewrite app_nil_r. reflexivity.
  - exists [x]. reflexivity.
Qed.

Lemma fold_set_add_extends (l s : list jsstring) :
  exists more, fold_left set_add l s = s ++ more.
Proof.
  revert s; induction l as [|x l IH]; intros s; simpl.
  - exists []. rewrite app_nil_r. reflexivity.
  - destruct (set_add_extends s x) as [m1 ->].
    destruct (IH (s ++ m1)) as [m2 ->].
    exists (m1 ++ m2). rewrite app_assoc. reflexivity.
Qed.

Lemma merge_entry_grows (m : JsMap GalleryEntry) (r : oneGalleryEntry) :
  (exists more, map fst (merge_entry m r) = map fst m ++ more) /\
  (forall k e,
      map_get m k = Some e ->
      exists gs ps,
        map_get (merge_entry m r) k =
        Some (mkEntry (filename e) (galleries e ++ gs) (properties e ++ ps))).
Proof.
  split.
  - rewrite merge_entry_keys. apply set_add_extends.
  - intros k e He. unfold merge_entry.
    destruct (str_eqb (one_filename r) k) eqn:E.
    + apply str_eqb_eq in E. rewrite E, He, map_get_set_same.
      rewrite add_properties_set_add, add_gallery_set_add. simpl.
      destruct (set_add_extends (galleries e) (one_gallery r)) as [gs ->].
      destruct (fold_set_add_extends (one_properties r) (properties e)) as [ps ->].
      exists gs, ps. reflexivity.
    + apply str_eqb_neq in E. rewrite (map_get_set_other _ _ E), He.
      exists [], []. rewrite !app_nil_r. destruct e; reflexivity.
Qed.

(** X25. Aggregation only adds: folding more parsed lines into an index
    keeps its items in their places with new items behind them, and keeps
    in every entry the sources and properties it had, in their places, with
    new ones behind them. *)
Theorem merge_all_grows (records : list oneGalleryEntry) (m : JsMap GalleryEntry) :
  (exists more, map fst (merge_all records m) = map fst m ++ more) /\
  (forall k e,
      map_get m k = Some e ->
      exists gs ps,
        map_get (merge_all records m) k =
        Some (mkEntry (filename e) (galleries e ++ gs) (properties e ++ ps))).
Proof.
  revert m; induction records as [|r records IH]; intros m.
  - split.
    + exists []. rewrite app_nil_r. reflexivity.
    + intros k e He. exists [], []. rewrite !app_nil_r.
      simpl. rewrite He. destruct e; reflexivity.
  - destruct (merge_entry_grows m r) as [[m1 K1] E1].
    destruct (IH (merge_entry m r)) as [[m2 K2] E2].
    split.
    + exists (m1 ++ m2). simpl. rewrite K2, K1, app_assoc. reflexivity.
    + intros k e He. destruct (E1 k e He) as [g1 [p1 H1]].
      destruct (E2 k _ H1) as [g2 [p2 H2]]. simpl in H2.
      exists (g1 ++ g2), (p1 ++ p2). simpl. rewrite H2, !app_assoc. reflexivity.
Qed.

Lemma merge_all_grows_witness :
  let m := [(str "x.png", mkEntry (str "x.png") [str "A"] [str "red"])] in
  exists gs ps,
    map_get (merge_all [mkOne (str "x.png") (str "B") [str "red"; str "big"]] m)
            (str "x.png") =
    Some (mkEntry (str "x.png") ([str "A"] ++ gs) ([str "red"] ++ ps)).
Proof.
  intros m.
  exact (proj2 (merge_all_grows
                  [mkOne (str "x.png") (str "B") [str "red"; str "big"]] m)
               (str "x.png") (mkEntry (str "x.png") [str "A"] [str "red"]) eq_refl).
Defined.

(** ** Further scenarios *)

Example autocomplete_scenario :
  extractAutocompleteOptions gallery_notes =
  Resolved (mkOptions [str "img1.png"; str "cat.jpg"] [str "A"; str "B"]
                      [str "red"; str "large"]).
Proof. reflexivity. Qed.

Example codeblock_scenario :
  codeblock_index gallery_notes
    (str "[[A]]" ++ [newline] ++ str "[[Nope]]" ++ [newline] ++ str "[[B]]") =
  Resolved
    [ (str "img1.png",
       mkEntry (str "img1.png") [str "A"; str "B"] [str "red"; str "large"]);
      (str "cat.jpg", mkEntry (str "cat.jpg") [str "B"] []) ].
Proof. reflexivity. Qed.

Example sources_scenario :
  TagBasedGallerySource_getGalleryContent mdGallery gallery_notes =
  Resolved [ str "#mdGallery" ++ [newline] ++ str "![[img1.png]]";
             str "<![[img1.png]]<red,large>>" ++ [newline] ++
             str "![[cat.jpg]] #mdGallery" ].
Proof. reflexivity. Qed.

Example search_block_scenario :
  getSelected
    (block_run ascii_toLowerCase [str "Red"; str "large"; str "blue"]
       [InputEvent (str "E"); ItemClick 1; InputEvent (str "");
        ItemClick 0; ChipClick 0]) = [str "Red"].
Proof. reflexivity. Qed.
